(** * Connect 4 search engine: a shallow embedding of
      [Connect_4_Main_Version.py] and the properties of its search.

    The development follows the Python module top-down: the module
    constants, the board primitives of [Connect4Game], the line scanners,
    the evaluator and finally [Connect4AI.minimax] with its transposition
    table.  A numpy board is a row-major list of rows of integers (the
    array only ever holds the values 0.0, 1.0 and 2.0, which compare and
    count exactly like the integers 0, 1 and 2).

    Inside the engine every index comes from a [range] over the game's own
    dimensions, so on a board of the game's shape ([wf_board]) no read is
    out of range; [cell] is therefore a total read, and statements carry
    [wf_board] where they talk about what the Python code returns.  The
    only index that comes from outside is the column given to
    [is_column_open], which is modelled with numpy's index rules. *)

From Stdlib Require Import ZArith List Bool Lia.
From stdpp Require Import base option list gmap.

Local Open Scope nat_scope.

(** ** Module constants *)

Definition PLAYER_HUMAN : Z := 0.
Definition PLAYER_AI : Z := 1.

Definition POSITIVE : Z := 10000000.
Definition NEGATIVE : Z := -10000000.

Definition PIECE_EMPTY : Z := 0.
Definition PIECE_HUMAN : Z := 1.
Definition PIECE_AI : Z := 2.

Definition WINNING_LENGTH : nat := 4.

(** ** Boards and the game object *)

Abbreviation board := (list (list Z)).

Record Connect4Game := mkGame { row_count : nat; column_count : nat }.

(** The shape numpy fixes at [np.zeros((row_count, column_count))]. *)
Definition wf_board (g : Connect4Game) (b : board) : Prop :=
  length b = row_count g ∧ Forall (λ row, length row = column_count g) b.

Definition wf_boardb (g : Connect4Game) (b : board) : bool :=
  (length b =? row_count g) && forallb (λ row, length row =? column_count g) b.

Definition create_board (g : Connect4Game) : board :=
  replicate (row_count g) (replicate (column_count g) PIECE_EMPTY).

(** [board[r][c]] for indices produced by the engine's own loops. *)
Definition cell (b : board) (r c : nat) : Z := nth c (nth r b []) PIECE_EMPTY.

(** [board[row][col] = piece]. *)
Definition place_disc (b : board) (row col : nat) (piece : Z) : board :=
  alter (λ line, <[col := piece]> line) row b.

(** numpy's rule for one integer index into an axis of length [n]:
    [0 <= i < n] is itself, [-n <= i < 0] counts from the end, anything
    else raises [IndexError] (here [None]). *)
Definition np_index (n : nat) (i : Z) : option nat :=
  if (0 <=? i)%Z then
    if (i <? Z.of_nat n)%Z then Some (Z.to_nat i) else None
  else
    if (- Z.of_nat n <=? i)%Z then Some (Z.to_nat (Z.of_nat n + i)) else None.

(** [is_column_open]: [board[self.row_count - 1][col] == PIECE_EMPTY];
    [None] is the [IndexError] numpy raises. *)
Definition is_column_open (g : Connect4Game) (b : board) (col : Z) : option bool :=
  r ← np_index (length b) (Z.of_nat (row_count g) - 1);
  line ← b !! r;
  c ← np_index (length line) col;
  x ← line !! c;
  Some (x =? PIECE_EMPTY)%Z.

(** [find_open_row]: the first [r] of [range(row_count)] whose cell is empty,
    Python's [None] when the loop falls through.  The column is one of the
    board's own ([col < column_count], all the engine and the game loop
    pass); for a column beyond them numpy raises [IndexError], which this
    total read does not show. *)
Definition find_open_row (g : Connect4Game) (b : board) (col : nat) : option nat :=
  List.find (λ r, (cell b r col =? PIECE_EMPTY)%Z) (seq 0 (row_count g)).

(** ** Line scanning *)

Definition four_equal (piece x0 x1 x2 x3 : Z) : bool :=
  (x0 =? piece)%Z && (x1 =? piece)%Z && (x2 =? piece)%Z && (x3 =? piece)%Z.

Definition win_horizontal (g : Connect4Game) (b : board) (piece : Z) : bool :=
  existsb (λ c, existsb (λ r,
    four_equal piece (cell b r c) (cell b r (c + 1)) (cell b r (c + 2)) (cell b r (c + 3)))
    (seq 0 (row_count g))) (seq 0 (column_count g - 3)).

Definition win_vertical (g : Connect4Game) (b : board) (piece : Z) : bool :=
  existsb (λ c, existsb (λ r,
    four_equal piece (cell b r c) (cell b (r + 1) c) (cell b (r + 2) c) (cell b (r + 3) c))
    (seq 0 (row_count g - 3))) (seq 0 (column_count g)).

Definition win_positive_diagonal (g : Connect4Game) (b : board) (piece : Z) : bool :=
  existsb (λ c, existsb (λ r,
    four_equal piece (cell b r c) (cell b (r + 1) (c + 1))
                     (cell b (r + 2) (c + 2)) (cell b (r + 3) (c + 3)))
    (seq 0 (row_count g - 3))) (seq 0 (column_count g - 3)).

Definition win_negative_diagonal (g : Connect4Game) (b : board) (piece : Z) : bool :=
  existsb (λ c, existsb (λ r,
    four_equal piece (cell b r c) (cell b (r - 1) (c + 1))
                     (cell b (r - 2) (c + 2)) (cell b (r - 3) (c + 3)))
    (seq 3 (row_count g - 3))) (seq 0 (column_count g - 3)).

(** [is_winning_pattern]: the four scans return [True] at the first hit,
    so the result is their disjunction. *)
Definition is_winning_pattern (g : Connect4Game) (b : board) (piece : Z) : bool :=
  if (piece =? PIECE_EMPTY)%Z then false
  else win_horizontal g b piece || win_vertical g b piece
       || win_positive_diagonal g b piece || win_negative_diagonal g b piece.

(** The test of one window in [is_near_win]; [line i] is the window's
    [i]-th cell:
    [sum([line(i) == piece for i in range(WINNING_LENGTH - 1)]) == 3 and
     PIECE_EMPTY in [line(i) for i in range(WINNING_LENGTH)]]. *)
Definition near_win_window (piece : Z) (line : nat → Z) : bool :=
  (length (filter (λ x, x = true)
            (map (λ i, (line i =? piece)%Z) (seq 0 (WINNING_LENGTH - 1)))) =? 3)
  && existsb (λ x, (x =? PIECE_EMPTY)%Z) (map line (seq 0 WINNING_LENGTH)).

(** The body of the [for piece in [PIECE_HUMAN, PIECE_AI]] loop. *)
Definition near_win_piece (g : Connect4Game) (b : board) (piece : Z) : bool :=
  existsb (λ c, existsb (λ r, near_win_window piece (λ i, cell b r (c + i)))
    (seq 0 (row_count g))) (seq 0 (column_count g - 3))
  || existsb (λ c, existsb (λ r, near_win_window piece (λ i, cell b (r + i) c))
    (seq 0 (row_count g - 3))) (seq 0 (column_count g))
  || existsb (λ c, existsb (λ r, near_win_window piece (λ i, cell b (r + i) (c + i)))
    (seq 0 (row_count g - 3))) (seq 0 (column_count g - 3))
  || existsb (λ c, existsb (λ r, near_win_window piece (λ i, cell b (r - i) (c + i)))
    (seq 3 (row_count g - 3))) (seq 0 (column_count g - 3)).

Definition is_near_win (g : Connect4Game) (b : board) : bool :=
  existsb (near_win_piece g b) [PIECE_HUMAN; PIECE_AI].

(** ** Dynamic depth *)

(** [np.count_nonzero(board == PIECE_EMPTY)]. *)
Definition empty_cells (b : board) : nat :=
  length (filter (λ x, x = PIECE_EMPTY) (concat b)).

(** [calculate_dynamic_depth].  The Python compares the float quotient
    [empty_cells / total_cells] with 0.5 and 0.25; both constants are exact
    in binary and the operands are far below 2^53, so the comparisons are
    those of the exact quotient, written here cross-multiplied
    ([total_cells] is positive for every game that [main] sets up). *)
Definition calculate_dynamic_depth (g : Connect4Game) (b : board) : nat :=
  let empty := empty_cells b in
  let total_cells := row_count g * column_count g in
  let base_depth := 7 in
  if 2 * empty <? total_cells then base_depth + 1
  else if 4 * empty <? total_cells then base_depth + 2
  else if is_near_win g b then base_depth + 3
  else base_depth.

(** ** Evaluator *)

(** [list.count]. *)
Definition count (l : list Z) (x : Z) : nat := length (filter (λ y, y = x) l).

Definition assess_line (line_segment : list Z) (piece : Z) : Z :=
  let opponent_piece := if (piece =? PIECE_HUMAN)%Z then PIECE_AI else PIECE_HUMAN in
  let score : Z :=
    if count line_segment piece =? 4 then 1000%Z
    else if (count line_segment piece =? 3) && (count line_segment PIECE_EMPTY =? 1)
         then 50%Z
    else if (count line_segment piece =? 2) && (count line_segment PIECE_EMPTY =? 2)
         then 10%Z
    else 0%Z in
  if (count line_segment opponent_piece =? 3) && (count line_segment PIECE_EMPTY =? 1)
  then (score - 25)%Z else score.

(** [board[r, :]], [board[:, c]] and the slice [a[i:i + WINNING_LENGTH]]. *)
Definition row_array (b : board) (r : nat) : list Z := nth r b [].
Definition col_array (b : board) (c : nat) : list Z :=
  map (λ line, nth c line PIECE_EMPTY) b.
Definition segment (a : list Z) (i : nat) : list Z := take WINNING_LENGTH (drop i a).

(** One iteration of the "immediate win check" loop: the cell is written,
    tested and written back on the board the caller passed in, so the board
    is part of the state. *)
Definition immediate_win_cell (g : Connect4Game) (piece : Z)
    (st : Z * board) (r c : nat) : Z * board :=
  let '(score, b) := st in
  if (cell b r c =? PIECE_EMPTY)%Z then
    let b1 := place_disc b r c piece in
    let score1 := if is_winning_pattern g b1 piece then (score + 1000000)%Z else score in
    (score1, place_disc b1 r c PIECE_EMPTY)
  else (score, b).

Definition immediate_win_check (g : Connect4Game) (piece : Z) (st : Z * board)
    : Z * board :=
  fold_left (λ st c,
    fold_left (λ st r, immediate_win_cell g piece st r c) (seq 0 (row_count g)) st)
    (seq 0 (column_count g)) st.

Definition horizontal_scoring (g : Connect4Game) (b : board) (piece score : Z) : Z :=
  fold_left (λ score r,
    fold_left (λ score c, (score + assess_line (segment (row_array b r) c) piece)%Z)
      (seq 0 (column_count g - 3)) score)
    (seq 0 (row_count g)) score.

Definition vertical_scoring (g : Connect4Game) (b : board) (piece score : Z) : Z :=
  fold_left (λ score c,
    fold_left (λ score r, (score + assess_line (segment (col_array b c) r) piece)%Z)
      (seq 0 (row_count g - 3)) score)
    (seq 0 (column_count g)) score.

Definition positive_diagonal_scoring (g : Connect4Game) (b : board) (piece score : Z) : Z :=
  fold_left (λ score r,
    fold_left (λ score c,
      (score + assess_line (map (λ i, cell b (r + i) (c + i)) (seq 0 WINNING_LENGTH)) piece)%Z)
      (seq 0 (column_count g - 3)) score)
    (seq 0 (row_count g - 3)) score.

Definition negative_diagonal_scoring (g : Connect4Game) (b : board) (piece score : Z) : Z :=
  fold_left (λ score r,
    fold_left (λ score c,
      (score + assess_line (map (λ i, cell b (r + 3 - i) (c + i)) (seq 0 WINNING_LENGTH)) piece)%Z)
      (seq 0 (column_count g - 3)) score)
    (seq 0 (row_count g - 3)) score.

(** [evaluate_board_state] returns the score together with the board as the
    function leaves it. *)
Definition evaluate_board_state (g : Connect4Game) (b : board) (piece : Z) : Z * board :=
  let center_array := col_array b (column_count g / 2) in
  let center_count := count center_array piece in
  let score := (0 + Z.of_nat center_count * 3)%Z in
  let '(score, b) := immediate_win_check g piece (score, b) in
  let score := horizontal_scoring g b piece score in
  let score := vertical_scoring g b piece score in
  let score := positive_diagonal_scoring g b piece score in
  let score := negative_diagonal_scoring g b piece score in
  (score, b).

(** ** Search *)

(** Scores in the search are Python ints, or the floats [-inf] and [inf]
    that seed [value], [alpha] and [beta]. *)
Inductive score : Type := NegInf | Fin (z : Z) | PosInf.

(** [x < y] on such numbers. *)
Definition score_lt (x y : score) : bool :=
  match x, y with
  | NegInf, NegInf => false
  | NegInf, _ => true
  | Fin _, NegInf => false
  | Fin a, Fin b => (a <? b)%Z
  | Fin _, PosInf => true
  | PosInf, _ => false
  end.

(** [x >= y]. *)
Definition score_ge (x y : score) : bool := negb (score_lt x y).

(** Python's [max(x, y)] and [min(x, y)]: the first argument unless the
    second is strictly better. *)
Definition score_max (x y : score) : score := if score_lt x y then y else x.
Definition score_min (x y : score) : score := if score_lt y x then y else x.

(** [find_playable_columns]. *)
Definition column_wins (g : Connect4Game) (b : board) (col : nat) : bool :=
  match find_open_row g b col with
  | Some temp_row => is_winning_pattern g (place_disc b temp_row col PLAYER_AI) PLAYER_AI
  | None => false
  end.

(** The columns the loop appends to [playable_columns], and those it also
    appends to [winning_columns]. *)
Definition open_columns (g : Connect4Game) (b : board) : list nat :=
  filter (λ col, is_column_open g b (Z.of_nat col) = Some true)
    (seq 0 (column_count g)).

Definition winning_columns (g : Connect4Game) (b : board) : list nat :=
  filter (λ col, column_wins g b col = true) (open_columns g b).

Definition find_playable_columns (g : Connect4Game) (b : board) : list nat :=
  match winning_columns g b with
  | [] => open_columns g b
  | _ => winning_columns g b
  end.

Definition is_game_over (g : Connect4Game) (b : board) : bool :=
  if is_winning_pattern g b PLAYER_AI then true
  else if is_winning_pattern g b PLAYER_HUMAN then true
  else if length (find_playable_columns g b) =? 0 then true
  else false.

(** The transposition table.  Its keys are [(str(board), depth,
    maximizingPlayer)]; numpy prints an array of at most 1000 cells in full,
    so on boards of one shape [str] is injective and the board itself is the
    key. *)
Abbreviation search_result := (option nat * score)%type.
Abbreviation table := (gmap (list (list Z) * nat * bool) (option nat * score)).

(** [row = find_open_row(board, col); b_copy = board.copy();
    place_disc(b_copy, row, col, piece)].  The loops only run over playable
    columns, where the row exists ([find_open_row_playable] below), so the
    [None] branch is never taken there. *)
Definition child (g : Connect4Game) (b : board) (col : nat) (piece : Z) : board :=
  match find_open_row g b col with
  | Some row => place_disc b row col piece
  | None => b
  end.

(** The scores of a won and of a lost game at a given remaining depth. *)
Definition win_score (g : Connect4Game) (depth : nat) : Z :=
  POSITIVE - (Z.of_nat (row_count g * column_count g) - Z.of_nat depth).
Definition loss_score (g : Connect4Game) (depth : nat) : Z :=
  NEGATIVE + (Z.of_nat (row_count g * column_count g) - Z.of_nat depth).

(** The branch [if depth == 0 or is_terminal]: the value of a node that is
    not expanded, with the board as [evaluate_board_state] leaves it. *)
Definition terminal_or_leaf (g : Connect4Game) (b : board) (depth : nat)
    (is_terminal : bool) : search_result * board :=
  if is_terminal then
    if is_winning_pattern g b PLAYER_AI then ((None, Fin (win_score g depth)), b)
    else if is_winning_pattern g b PLAYER_HUMAN then ((None, Fin (loss_score g depth)), b)
    else ((None, Fin 0), b)
  else
    let '(s, b) := evaluate_board_state g b PLAYER_AI in ((None, Fin s), b).

(** One step of an unpruned loop: the first column with the best score so
    far is kept. *)
Definition keep_max (score_of : nat → score) (best : option nat * score) (col : nat)
    : option nat * score :=
  let '(column, value) := best in
  let new_score := score_of col in
  if score_lt value new_score then (Some col, new_score) else (column, value).

Definition keep_min (score_of : nat → score) (best : option nat * score) (col : nat)
    : option nat * score :=
  let '(column, value) := best in
  let new_score := score_of col in
  if score_lt new_score value then (Some col, new_score) else (column, value).

Section Search.

(** [random.choice], which seeds [column] before the loop.  The generator's
    state is not tracked: the draw is an arbitrary function of the table
    and the node at the time of the call, besides the list.  A node is
    expanded only while its key is missing from the table and the key is
    stored at the end of the expansion, so in the life of a table no two
    draws share these arguments and every run of the generator is such a
    function. *)
Variable random_choice : table → board → nat → bool → list nat → nat.
Variable g : Connect4Game.

(** The [for col in playable_columns] loop of the maximizing player;
    [rec] is the recursive call at [depth - 1]. *)
Fixpoint maximizing_loop
    (rec : board → score → score → bool → table → search_result * board * table)
    (b : board) (cols : list nat) (column : option nat)
    (value alpha beta : score) (T : table) : search_result * table :=
  match cols with
  | [] => ((column, value), T)
  | col :: cols =>
      let b_copy := child g b col PLAYER_AI in
      let '(r, _, T) := rec b_copy alpha beta false T in
      let new_score := r.2 in
      let '(value, column) :=
        if score_lt value new_score then (new_score, Some col) else (value, column) in
      let alpha := score_max alpha value in
      if score_ge alpha beta then ((column, value), T)
      else maximizing_loop rec b cols column value alpha beta T
  end.

(** The loop of the minimizing player. *)
Fixpoint minimizing_loop
    (rec : board → score → score → bool → table → search_result * board * table)
    (b : board) (cols : list nat) (column : option nat)
    (value alpha beta : score) (T : table) : search_result * table :=
  match cols with
  | [] => ((column, value), T)
  | col :: cols =>
      let b_copy := child g b col PLAYER_HUMAN in
      let '(r, _, T) := rec b_copy alpha beta true T in
      let new_score := r.2 in
      let '(value, column) :=
        if score_lt new_score value then (new_score, Some col) else (value, column) in
      let beta := score_min beta value in
      if score_ge alpha beta then ((column, value), T)
      else minimizing_loop rec b cols column value alpha beta T
  end.

(** [Connect4AI.minimax]: the result, the caller's board as the call
    leaves it, and the transposition table. *)
Fixpoint minimax (depth : nat) (b : board) (alpha beta : score)
    (maximizingPlayer : bool) (T : table) : search_result * board * table :=
  match T !! (b, depth, maximizingPlayer) with
  | Some cached => (cached, b, T)
  | None =>
      let playable_columns := find_playable_columns g b in
      let is_terminal := is_game_over g b in
      match depth, is_terminal with
      | S depth', false =>
          let '(r, T) :=
            if maximizingPlayer then
              maximizing_loop (minimax depth') b playable_columns
                (Some (random_choice T b depth maximizingPlayer playable_columns))
                NegInf alpha beta T
            else
              minimizing_loop (minimax depth') b playable_columns
                (Some (random_choice T b depth maximizingPlayer playable_columns))
                PosInf alpha beta T in
          (r, b, <[(b, depth, maximizingPlayer) := r]> T)
      | _, _ =>
          let '(r, b) := terminal_or_leaf g b depth is_terminal in (r, b, T)
      end
  end.

(** The search the specification compares with: the same tree, the same
    node values and the same first-best choice, with neither pruning nor
    table, and with no column chosen before the first child is scored. *)
Fixpoint full_minimax (depth : nat) (b : board) (maximizingPlayer : bool)
    : search_result :=
  match depth, is_game_over g b with
  | S depth', false =>
      let playable_columns := find_playable_columns g b in
      if maximizingPlayer then
        fold_left
          (keep_max (λ col, (full_minimax depth' (child g b col PLAYER_AI) false).2))
          playable_columns (None, NegInf)
      else
        fold_left
          (keep_min (λ col, (full_minimax depth' (child g b col PLAYER_HUMAN) true).2))
          playable_columns (None, PosInf)
  | _, _ => (terminal_or_leaf g b depth (is_game_over g b)).1
  end.

End Search.

(** ** Concrete games and boards used in the examples *)

Definition g44 : Connect4Game := mkGame 4 4.
Definition g67 : Connect4Game := mkGame 6 7.

(** [random.choice] replaced by a fixed choice, to run the search. *)
Definition first_choice (T : table) (b : board) (depth : nat) (side : bool)
    (l : list nat) : nat := hd 0 l.

(** ** The evaluator's score in closed form *)

Definition Zsum (l : list Z) : Z := fold_right Z.add 0%Z l.

(** The cells in the order the immediate-win loop visits them. *)
Definition board_cells (g : Connect4Game) : list (nat * nat) :=
  flat_map (λ c, map (λ r, (r, c)) (seq 0 (row_count g))) (seq 0 (column_count g)).

(** An empty cell at which a disc of [piece] makes a winning pattern,
    whether or not a disc can currently be dropped there. *)
Definition completes_four (g : Connect4Game) (b : board) (piece : Z)
    (rc : nat * nat) : bool :=
  (cell b rc.1 rc.2 =? PIECE_EMPTY)%Z
  && is_winning_pattern g (place_disc b rc.1 rc.2 piece) piece.

Definition immediate_win_cells (g : Connect4Game) (b : board) (piece : Z)
    : list (nat * nat) :=
  List.filter (completes_four g b piece) (board_cells g).

(** The four cells from [(r, c)] in direction [(dr, dc)], [down] telling
    whether the row decreases ([r - i * dr]) or increases. *)
Definition window (b : board) (r c : nat) (down : bool) (dr dc : nat) : list Z :=
  map (λ i, cell b (if down then r - i * dr else r + i * dr) (c + i * dc))
    (seq 0 WINNING_LENGTH).

Definition horizontal_windows (g : Connect4Game) (b : board) : list (list Z) :=
  flat_map (λ r, map (λ c, window b r c false 0 1) (seq 0 (column_count g - 3)))
    (seq 0 (row_count g)).
Definition vertical_windows (g : Connect4Game) (b : board) : list (list Z) :=
  flat_map (λ c, map (λ r, window b r c false 1 0) (seq 0 (row_count g - 3)))
    (seq 0 (column_count g)).
Definition positive_diagonal_windows (g : Connect4Game) (b : board) : list (list Z) :=
  flat_map (λ r, map (λ c, window b r c false 1 1) (seq 0 (column_count g - 3)))
    (seq 0 (row_count g - 3)).
Definition negative_diagonal_windows (g : Connect4Game) (b : board) : list (list Z) :=
  flat_map (λ r, map (λ c, window b (r + 3) c true 1 1) (seq 0 (column_count g - 3)))
    (seq 0 (row_count g - 3)).

Definition all_windows (g : Connect4Game) (b : board) : list (list Z) :=
  horizontal_windows g b ++ vertical_windows g b
  ++ positive_diagonal_windows g b ++ negative_diagonal_windows g b.

Definition center_column_bonus (g : Connect4Game) (b : board) (piece : Z) : Z :=
  (Z.of_nat (count (col_array b (column_count g / 2)) piece) * 3)%Z.

Definition window_sum (g : Connect4Game) (b : board) (piece : Z) : Z :=
  Zsum (map (λ w, assess_line w piece) (all_windows g b)).

(** What the specification says the score is. *)
Definition spec_score (g : Connect4Game) (b : board) (piece : Z) : Z :=
  (center_column_bonus g b piece + window_sum g b piece)%Z.

(** Row 0 holds three discs of piece 1 and an empty cell. *)
Definition board_three_in_row : board :=
  [[1; 1; 1; 0]; [0; 0; 0; 0]; [0; 0; 0; 0]; [0; 0; 0; 0]]%Z.

(** ** The specification's readings, for comparison *)

(** "Exactly three [piece] cells and at least one [Empty] cell among the
    four", wherever they sit in the window. *)
Definition open_three_window (piece : Z) (w : list Z) : bool :=
  (count w piece =? 3) && (1 <=? count w PIECE_EMPTY).

Definition spec_has_open_three (g : Connect4Game) (b : board) (piece : Z) : bool :=
  existsb (open_three_window piece) (all_windows g b).

(** The cumulative depth policy: base depth, +1 past half filled, a further
    +1 past 75 percent filled, +1 for an open three of either side. *)
Definition spec_choose_depth (g : Connect4Game) (b : board) : nat :=
  let total_cells := row_count g * column_count g in
  7 + (if 2 * empty_cells b <? total_cells then 1 else 0)
    + (if 4 * empty_cells b <? total_cells then 1 else 0)
    + (if spec_has_open_three g b PIECE_HUMAN || spec_has_open_three g b PIECE_AI
       then 1 else 0).

(** Piece 1 holds three cells of row 0, with the gap inside. *)
Definition board_gap_three : board :=
  [[1; 0; 1; 1]; [0; 0; 0; 0]; [0; 0; 0; 0]; [0; 0; 0; 0]]%Z.

(** Twelve of sixteen cells filled, no window reads three equal discs and
    an empty cell. *)
Definition board_three_rows : board :=
  [[1; 2; 1; 2]; [1; 2; 1; 2]; [2; 1; 2; 1]; [0; 0; 0; 0]]%Z.

(** Fifteen of sixteen cells filled, nobody has four, and the top row reads
    1 1 1 0. *)
Definition board_late_near_win : board :=
  [[2; 2; 1; 2]; [1; 2; 2; 1]; [2; 1; 2; 2]; [1; 1; 1; 0]]%Z.

(** The human (piece 1) has completed row 0; the AI (piece 2) has three
    discs on row 1. *)
Definition board_human_four : board :=
  [[1; 1; 1; 1; 0; 0; 0]; [2; 2; 2; 0; 0; 0; 0]; [0; 0; 0; 0; 0; 0; 0];
   [0; 0; 0; 0; 0; 0; 0]; [0; 0; 0; 0; 0; 0; 0]; [0; 0; 0; 0; 0; 0; 0]]%Z.

(** The AI (piece 2) has completed row 0; the human has three discs on
    row 1 and one on row 2. *)
Definition board_ai_four : board :=
  [[2; 2; 2; 2; 0; 0; 0]; [1; 1; 2; 1; 0; 0; 0]; [1; 0; 0; 0; 0; 0; 0];
   [0; 0; 0; 0; 0; 0; 0]; [0; 0; 0; 0; 0; 0; 0]; [0; 0; 0; 0; 0; 0; 0]]%Z.

(** Every entry of the table names a playable column of its board, as the
    entries [minimax] stores do. *)
Definition table_columns_playable (g : Connect4Game) (T : table) : Prop :=
  ∀ (b : board) depth side r, T !! (b, depth, side) = Some r →
    ∃ col, r.1 = Some col ∧ col ∈ find_playable_columns g b.

(** ** Boards reached by play *)

(** The game loop of [main]: the two sides alternate, a move is a column
    whose top cell is empty, the disc goes to the lowest empty row, and no
    move is made once a side has four in a row. *)
Definition other_piece (piece : Z) : Z :=
  if (piece =? PIECE_HUMAN)%Z then PIECE_AI else PIECE_HUMAN.

Fixpoint play_moves (g : Connect4Game) (b : board) (piece : Z) (moves : list nat)
    : option board :=
  match moves with
  | [] => Some b
  | col :: rest =>
      if is_winning_pattern g b PIECE_HUMAN || is_winning_pattern g b PIECE_AI then None
      else
        match is_column_open g b (Z.of_nat col), find_open_row g b col with
        | Some true, Some row =>
            play_moves g (place_disc b row col piece) (other_piece piece) rest
        | _, _ => None
        end
  end.

Definition reachable (g : Connect4Game) (b : board) : Prop :=
  ∃ first moves, (first = PIECE_HUMAN ∨ first = PIECE_AI)
                 ∧ play_moves g (create_board g) first moves = Some b.

(** A 7 x 15 game in which the human, moving first, has built ten stacks of
    three: in every group of three columns the first holds 1 1 1, the second
    2 2 2 1 1 1 and the third 2 2 2. *)
Definition g715 : Connect4Game := mkGame 7 15.

Definition many_threats_moves : list nat :=
  flat_map (λ i, [3 * i; 3 * i + 1; 3 * i; 3 * i + 1; 3 * i; 3 * i + 1;
                  3 * i + 1; 3 * i + 2; 3 * i + 1; 3 * i + 2; 3 * i + 1; 3 * i + 2])
    (seq 0 5).

Definition many_threats_board : board :=
  [[1; 2; 2; 1; 2; 2; 1; 2; 2; 1; 2; 2; 1; 2; 2];
   [1; 2; 2; 1; 2; 2; 1; 2; 2; 1; 2; 2; 1; 2; 2];
   [1; 2; 2; 1; 2; 2; 1; 2; 2; 1; 2; 2; 1; 2; 2];
   [0; 1; 0; 0; 1; 0; 0; 1; 0; 0; 1; 0; 0; 1; 0];
   [0; 1; 0; 0; 1; 0; 0; 1; 0; 0; 1; 0; 0; 1; 0];
   [0; 1; 0; 0; 1; 0; 0; 1; 0; 0; 1; 0; 0; 1; 0];
   [0; 0; 0; 0; 0; 0; 0; 0; 0; 0; 0; 0; 0; 0; 0]]%Z.

(** ** Tables built by full-window searches *)

(** Every entry is the result of the unpruned search for its key. *)
Definition table_exact (g : Connect4Game) (T : table) : Prop :=
  ∀ (b : board) depth side r, T !! (b, depth, side) = Some r →
    r = full_minimax g depth b side.

(** A node whose value does not depend on the window: it is in the table,
    or it is not expanded. *)
Definition settled (g : Connect4Game) (T : table) (b : board) (depth : nat)
    (side : bool) : Prop :=
  is_Some (T !! (b, depth, side)) ∨ depth = 0 ∨ is_game_over g b = true.

(** ** The rest of the engine: shortcut, iterative deepening, the AI's turn *)

(** Discs rest on discs: above an empty cell of a column every cell is
    empty. *)
Definition gravity (g : Connect4Game) (b : board) : Prop :=
  ∀ r c, r + 1 < row_count g → c < column_count g →
    cell b r c = PIECE_EMPTY → cell b (r + 1) c = PIECE_EMPTY.

(** [get_immediate_win_move]: the loop over [range(column_count)], on the
    caller's board, which is written, tested and written back; the first
    winning column ends the loop.  An open column has an open row
    ([is_column_open_find_open_row] below), so the branch without a row is
    not taken on a board of the game's shape. *)
Fixpoint immediate_win_scan (g : Connect4Game) (piece : Z) (cols : list nat)
    (b : board) : option nat * board :=
  match cols with
  | [] => (None, b)
  | col :: cols =>
      if bool_decide (is_column_open g b (Z.of_nat col) = Some true) then
        match find_open_row g b col with
        | Some row =>
            let b1 := place_disc b row col piece in
            if is_winning_pattern g b1 piece then
              (Some col, place_disc b1 row col PIECE_EMPTY)
            else immediate_win_scan g piece cols (place_disc b1 row col PIECE_EMPTY)
        | None => immediate_win_scan g piece cols b
        end
      else immediate_win_scan g piece cols b
  end.

Definition get_immediate_win_move (g : Connect4Game) (b : board) (piece : Z)
    : option nat * board :=
  immediate_win_scan g piece (seq 0 (column_count g)) b.

(** One round of the [for depth in range(1, max_depth + 1)] loop. *)
Definition deepening_step (random_choice : table → board → nat → bool → list nat → nat)
    (g : Connect4Game) (alpha beta : score)
    (st : search_result * board * table) (depth : nat) : search_result * board * table :=
  let '((best_col, best_score), b, T) := st in
  let '((column, score), b, T) := minimax random_choice g depth b alpha beta true T in
  if score_lt best_score score then ((column, score), b, T)
  else ((best_col, best_score), b, T).

(** [iterative_deepening_minimax].  Its own draw of [random.choice] is the
    oracle at depth 0, where [minimax] never draws. *)
Definition iterative_deepening_minimax
    (random_choice : table → board → nat → bool → list nat → nat)
    (g : Connect4Game) (b : board) (max_depth : nat) (alpha beta : score) (T : table)
    : search_result * board * table :=
  let playable_columns := find_playable_columns g b in
  match playable_columns with
  | [] => ((None, Fin 0), b, T)
  | _ =>
      fold_left (deepening_step random_choice g alpha beta) (seq 1 max_depth)
        ((Some (random_choice T b 0 true playable_columns), NegInf), b, T)
  end.

(** The state of the game loop of [main] that the AI's turn reads and
    writes. *)
Record session := mkSession {
  s_board : board;
  s_table : table;
  s_turn : Z;
  s_game_over : bool
}.

(** The body of [if turn == PLAYER_AI and not game_over] in [main], without
    the drawing. *)
Definition ai_turn (random_choice : table → board → nat → bool → list nat → nat)
    (g : Connect4Game) (s : session) : session :=
  let '(immediate_win_col, b) := get_immediate_win_move g (s_board s) PIECE_AI in
  match immediate_win_col with
  | Some col =>
      let b := child g b col PIECE_AI in
      mkSession b (s_table s) (s_turn s)
        (if is_winning_pattern g b PIECE_AI then true else s_game_over s)
  | None =>
      let dynamic_depth := calculate_dynamic_depth g b in
      let '((column, _), b, T) :=
        iterative_deepening_minimax random_choice g b dynamic_depth NegInf PosInf
          (s_table s) in
      match column with
      | None => mkSession b T (s_turn s) true
      | Some column =>
          if bool_decide (is_column_open g b (Z.of_nat column) = Some true) then
            let b := child g b column PIECE_AI in
            mkSession b T PLAYER_HUMAN
              (if is_winning_pattern g b PIECE_AI then true else s_game_over s)
          else mkSession b T (s_turn s) (s_game_over s)
      end
  end.

(** The first pick over the depths [1..max_depth] of the unpruned search:
    what iterative deepening computes when each round is exact. *)
Definition best_over_depths (g : Connect4Game) (b : board) (max_depth : nat)
    (seed : search_result) : search_result :=
  fold_left (λ best depth,
    let r := full_minimax g depth b true in
    if score_lt best.2 r.2 then r else best) (seq 1 max_depth) seed.

(** [T'] has every entry of [T] unchanged, and its new keys have depth at
    most [depth]. *)
Definition table_grows (T T' : table) (depth : nat) : Prop :=
  T ⊆ T' ∧ ∀ k, T !! k = None → is_Some (T' !! k) → k.1.2 ≤ depth.

(** A full 4 x 4 board on which nobody has four in a row. *)
Definition board_full : board :=
  [[1; 2; 1; 2]; [1; 2; 1; 2]; [2; 1; 2; 1]; [2; 1; 2; 1]]%Z.

(** Twelve of sixteen cells filled (more than half, not more than 75
    percent), nobody has four, and column 0 reads 1 1 1 0 from the bottom. *)
Definition board_mid_near_win : board :=
  [[1; 2; 1; 2]; [1; 2; 2; 1]; [1; 1; 2; 2]; [0; 0; 0; 0]]%Z.

(** ** One child of an expanding node *)

(** What a loop of [minimax] carries from one child to the next. *)
Record loop_state := mkLoop {
  ls_column : option nat;
  ls_value : score;
  ls_alpha : score;
  ls_beta : score;
  ls_table : table
}.

(** The body of the maximizing loop for the child in column [col], up to the
    [break] test: one recursive call on the copy with the disc dropped in
    [col], then the updates of [value], [column] and [alpha]. *)
Definition maximizing_visit (g : Connect4Game)
    (rec : board → score → score → bool → table → search_result * board * table)
    (b : board) (st : loop_state) (col : nat) : loop_state :=
  let b_copy := child g b col PLAYER_AI in
  let '(r, _, T) := rec b_copy (ls_alpha st) (ls_beta st) false (ls_table st) in
  let new_score := r.2 in
  let '(value, column) :=
    if score_lt (ls_value st) new_score then (new_score, Some col)
    else (ls_value st, ls_column st) in
  mkLoop column value (score_max (ls_alpha st) value) (ls_beta st) T.

(** The same for the minimizing loop, which updates [beta]. *)
Definition minimizing_visit (g : Connect4Game)
    (rec : board → score → score → bool → table → search_result * board * table)
    (b : board) (st : loop_state) (col : nat) : loop_state :=
  let b_copy := child g b col PLAYER_HUMAN in
  let '(r, _, T) := rec b_copy (ls_alpha st) (ls_beta st) true (ls_table st) in
  let new_score := r.2 in
  let '(value, column) :=
    if score_lt new_score (ls_value st) then (new_score, Some col)
    else (ls_value st, ls_column st) in
  mkLoop column value (ls_alpha st) (score_min (ls_beta st) value) T.

(** [if alpha >= beta: break]. *)
Definition cut_off (st : loop_state) : bool := score_ge (ls_alpha st) (ls_beta st).

(** * Properties *)

(** ** Board primitives *)

Lemma cell_lookup (b : board) r c line :
  b !! r = Some line → cell b r c = nth c line PIECE_EMPTY.
Proof. intros H. unfold cell. by rewrite (nth_lookup_Some _ _ _ _ H). Qed.

Lemma place_disc_twice (b : board) r c p q :
  place_disc (place_disc b r c p) r c q = place_disc b r c q.
Proof.
  unfold place_disc. rewrite list_alter_alter_eq.
  apply list_alter_ext; [|done]. intros line _. simpl.
  apply list_insert_insert_eq.
Qed.

Lemma place_disc_same (b : board) r c : place_disc b r c (cell b r c) = b.
Proof.
  unfold place_disc.
  transitivity (alter (λ line : list Z, line) r b).
  - apply list_alter_ext; [|done]. intros line Hline.
    rewrite (cell_lookup _ _ _ _ Hline).
    apply list_insert_id'. intros Hc.
    destruct (nth_lookup_or_length line c PIECE_EMPTY); [done|lia].
  - by apply list_alter_id.
Qed.

(** Writing a piece on an empty cell and writing [PIECE_EMPTY] back gives
    the board back. *)
Lemma place_disc_undo (b : board) r c piece :
  cell b r c = PIECE_EMPTY →
  place_disc (place_disc b r c piece) r c PIECE_EMPTY = b.
Proof. intros H. rewrite place_disc_twice, <- H at 1. apply place_disc_same. Qed.

Lemma place_disc_wf g (b : board) r c piece :
  wf_board g b → wf_board g (place_disc b r c piece).
Proof.
  intros [Hlen Hrows]. split.
  - unfold place_disc. by rewrite length_alter.
  - unfold place_disc. rewrite Forall_lookup in Hrows |- *.
    intros i line. rewrite list_lookup_alter. case_decide as Hi; [|by eauto].
    destruct (b !! r) as [line0|] eqn:E; simpl; [|done].
    intros [= <-]. rewrite length_insert. eauto.
Qed.

Lemma wf_boardb_spec g (b : board) : wf_boardb g b = true → wf_board g b.
Proof.
  unfold wf_boardb, wf_board. rewrite andb_true_iff, forallb_forall, Forall_forall.
  intros [H1 H2]. split; [by apply Nat.eqb_eq|].
  intros x Hx. apply Nat.eqb_eq, H2. by apply list_elem_of_In.
Qed.

Lemma find_open_row_Some g (b : board) col row :
  find_open_row g b col = Some row →
  row < row_count g ∧ cell b row col = PIECE_EMPTY.
Proof.
  unfold find_open_row. intros H. apply find_some in H as [Hin Hc].
  apply in_seq in Hin. split; [lia|]. by apply Z.eqb_eq.
Qed.

(** The minimizing player's disc is [PLAYER_HUMAN], the value of an empty
    cell: its child is the board itself. *)
Lemma child_PLAYER_HUMAN g (b : board) col : child g b col PLAYER_HUMAN = b.
Proof.
  unfold child. destruct (find_open_row g b col) as [row|] eqn:E; [|done].
  apply find_open_row_Some in E as [_ E].
  change PLAYER_HUMAN with PIECE_EMPTY. rewrite <- E. apply place_disc_same.
Qed.

(** ** The evaluator leaves the board as it found it *)

Lemma immediate_win_cell_eq g piece s (b : board) r c :
  immediate_win_cell g piece (s, b) r c =
  ((s + if completes_four g b piece (r, c) then 1000000 else 0)%Z, b).
Proof.
  unfold immediate_win_cell, completes_four. simpl.
  destruct (cell b r c =? PIECE_EMPTY)%Z eqn:E; simpl.
  - apply Z.eqb_eq in E. rewrite (place_disc_undo _ _ _ _ E).
    by destruct (is_winning_pattern _ _ _); rewrite ?Z.add_0_r.
  - by rewrite Z.add_0_r.
Qed.

Lemma fold_left_cells_eq {A} (f : A → bool) (step : Z * board → A → Z * board) (b : board) :
  (∀ s x, step (s, b) x = ((s + if f x then 1000000 else 0)%Z, b)) →
  ∀ l s, fold_left step l (s, b) =
         ((s + 1000000 * Z.of_nat (length (List.filter f l)))%Z, b).
Proof.
  intros Hstep l. induction l as [|x l IH]; intros s; simpl.
  - f_equal. lia.
  - rewrite Hstep, IH. destruct (f x); simpl; f_equal; lia.
Qed.

Lemma immediate_win_check_eq g piece s (b : board) :
  immediate_win_check g piece (s, b) =
  ((s + 1000000 * Z.of_nat (length (immediate_win_cells g b piece)))%Z, b).
Proof.
  unfold immediate_win_check, immediate_win_cells, board_cells.
  generalize (seq 0 (column_count g)) as cols. intros cols. revert s.
  induction cols as [|c cols IH]; intros s; simpl.
  - f_equal. lia.
  - rewrite (fold_left_cells_eq (λ r, completes_four g b piece (r, c))).
    2:{ intros. apply immediate_win_cell_eq. }
    rewrite IH. rewrite List.filter_app, length_app.
    f_equal. replace (List.filter (completes_four g b piece) (map (λ r, (r, c)) (seq 0 (row_count g))))
      with (map (λ r, (r, c)) (List.filter (λ r, completes_four g b piece (r, c)) (seq 0 (row_count g)))).
    + rewrite length_map. lia.
    + generalize (seq 0 (row_count g)). intros l. induction l as [|r l IHl]; simpl; [done|].
      destruct (completes_four g b piece (r, c)); simpl; by rewrite IHl.
Qed.

Lemma evaluate_board_state_board g (b : board) piece :
  (evaluate_board_state g b piece).2 = b.
Proof. unfold evaluate_board_state. by rewrite immediate_win_check_eq. Qed.

Lemma terminal_or_leaf_board g (b : board) depth t :
  (terminal_or_leaf g b depth t).2 = b.
Proof.
  unfold terminal_or_leaf.
  destruct t; [by repeat case_match|].
  pose proof (evaluate_board_state_board g b PLAYER_AI) as H.
  destruct (evaluate_board_state g b PLAYER_AI) as [s b']. simpl in *. by subst.
Qed.

Lemma minimax_board random_choice g depth (b : board) alpha beta side T :
  (minimax random_choice g depth b alpha beta side T).1.2 = b.
Proof.
  pose proof (terminal_or_leaf_board g b depth (is_game_over g b)) as Hleaf.
  destruct depth as [|depth']; simpl;
    destruct (T !! _); simpl; try done.
  - by destruct (terminal_or_leaf _ _ _ _) as [r b'].
  - destruct (is_game_over g b).
    + by destruct (terminal_or_leaf _ _ _ _) as [r b'].
    + destruct side.
      * by destruct (maximizing_loop _ _ _ _ _ _ _ _ _).
      * by destruct (minimizing_loop _ _ _ _ _ _ _ _ _).
Qed.

(** C8. [minimax] and [evaluate_board_state] hand the caller's board back
    cell for cell as it was at entry, and a second evaluation of the board
    the first one left gives the same score. *)
Theorem search_and_evaluation_keep_board random_choice g depth (b : board)
    alpha beta side T piece :
  (minimax random_choice g depth b alpha beta side T).1.2 = b
  ∧ (evaluate_board_state g b piece).2 = b
  ∧ (evaluate_board_state g (evaluate_board_state g b piece).2 piece).1
    = (evaluate_board_state g b piece).1.
Proof.
  split; [apply minimax_board|]. split; [apply evaluate_board_state_board|].
  by rewrite evaluate_board_state_board.
Qed.

(** ** The evaluator's score in closed form *)

Lemma fold_left_add {A} (f : A → Z) (l : list A) (s : Z) :
  fold_left (λ s x, (s + f x)%Z) l s = (s + Zsum (map f l))%Z.
Proof.
  revert s. induction l as [|x l IH]; intros s; simpl; [lia|]. rewrite IH. lia.
Qed.

Lemma Zsum_app (l k : list Z) : Zsum (l ++ k) = (Zsum l + Zsum k)%Z.
Proof. induction l as [|x l IH]; simpl; [done|]. rewrite IH. lia. Qed.

Lemma fold_left_add_nested {A B} (f : A → B → Z) (W : A → B → list Z) (F : list Z → Z)
    (inner : list B) (outer : list A) (s : Z) :
  (∀ x y, x ∈ outer → y ∈ inner → f x y = F (W x y)) →
  fold_left (λ s x, fold_left (λ s y, (s + f x y)%Z) inner s) outer s
  = (s + Zsum (map F (flat_map (λ x, map (W x) inner) outer)))%Z.
Proof.
  revert s. induction outer as [|x outer IH]; intros s Hf; simpl; [lia|].
  rewrite fold_left_add, IH by (intros; apply Hf; [by right|done]).
  rewrite map_app, Zsum_app, map_map.
  rewrite (map_ext_in (f x) (λ y, F (W x y))).
  - lia.
  - intros y Hy. apply Hf; [by left|by apply list_elem_of_In].
Qed.

Lemma segment_nth (a : list Z) (i : nat) :
  i + 4 ≤ length a →
  segment a i = [nth i a PIECE_EMPTY; nth (i + 1) a PIECE_EMPTY;
                 nth (i + 2) a PIECE_EMPTY; nth (i + 3) a PIECE_EMPTY].
Proof.
  revert a. induction i as [|i IH]; intros a Hlen.
  - destruct a as [|x0 [|x1 [|x2 [|x3 a]]]]; simpl in Hlen; try lia. done.
  - destruct a as [|x a]; simpl in Hlen; [lia|].
    unfold segment in *. simpl. rewrite IH by lia. done.
Qed.

Lemma row_array_length g (b : board) r :
  wf_board g b → r < row_count g → length (row_array b r) = column_count g.
Proof.
  intros [Hlen Hrows] Hr. unfold row_array.
  rewrite Forall_lookup in Hrows.
  destruct (lookup_lt_is_Some_2 b r) as [line Hline]; [lia|].
  rewrite (nth_lookup_Some _ _ _ _ Hline). eauto.
Qed.

Lemma col_array_nth (b : board) r c :
  nth r (col_array b c) PIECE_EMPTY = cell b r c.
Proof.
  unfold col_array, cell.
  rewrite <- (map_nth (λ line : list Z, nth c line PIECE_EMPTY) b [] r).
  f_equal. by destruct c.
Qed.

Lemma horizontal_scoring_eq g (b : board) piece s :
  wf_board g b →
  horizontal_scoring g b piece s
  = (s + Zsum (map (λ w, assess_line w piece) (horizontal_windows g b)))%Z.
Proof.
  intros Hwf. unfold horizontal_scoring, horizontal_windows.
  apply (fold_left_add_nested
           (λ r c, assess_line (segment (row_array b r) c) piece)
           (λ r c, window b r c false 0 1) (λ w, assess_line w piece)).
  intros r c Hr%elem_of_seq Hc%elem_of_seq. f_equal.
  rewrite segment_nth by (rewrite (row_array_length g) by (done || lia); lia).
  unfold window, row_array, cell. simpl.
  by rewrite !Nat.add_0_r.
Qed.

Lemma vertical_scoring_eq g (b : board) piece s :
  wf_board g b →
  vertical_scoring g b piece s
  = (s + Zsum (map (λ w, assess_line w piece) (vertical_windows g b)))%Z.
Proof.
  intros Hwf. unfold vertical_scoring, vertical_windows.
  apply (fold_left_add_nested
           (λ c r, assess_line (segment (col_array b c) r) piece)
           (λ c r, window b r c false 1 0) (λ w, assess_line w piece)).
  intros c r Hc%elem_of_seq Hr%elem_of_seq. f_equal.
  rewrite segment_nth.
  2:{ unfold col_array. rewrite length_map. destruct Hwf as [-> _]. lia. }
  rewrite !col_array_nth. unfold window. simpl.
  by rewrite !Nat.add_0_r.
Qed.

Lemma positive_diagonal_scoring_eq g (b : board) piece s :
  positive_diagonal_scoring g b piece s
  = (s + Zsum (map (λ w, assess_line w piece) (positive_diagonal_windows g b)))%Z.
Proof.
  unfold positive_diagonal_scoring, positive_diagonal_windows.
  apply (fold_left_add_nested
           (λ r c, assess_line (map (λ i, cell b (r + i) (c + i)) (seq 0 WINNING_LENGTH)) piece)
           (λ r c, window b r c false 1 1) (λ w, assess_line w piece)).
  intros r c _ _. reflexivity.
Qed.

Lemma negative_diagonal_scoring_eq g (b : board) piece s :
  negative_diagonal_scoring g b piece s
  = (s + Zsum (map (λ w, assess_line w piece) (negative_diagonal_windows g b)))%Z.
Proof.
  unfold negative_diagonal_scoring, negative_diagonal_windows.
  apply (fold_left_add_nested
           (λ r c, assess_line (map (λ i, cell b (r + 3 - i) (c + i)) (seq 0 WINNING_LENGTH)) piece)
           (λ r c, window b (r + 3) c true 1 1) (λ w, assess_line w piece)).
  intros r c _ _. reflexivity.
Qed.

Lemma evaluate_board_state_sum g (b : board) piece :
  wf_board g b →
  (evaluate_board_state g b piece).1
  = (center_column_bonus g b piece
     + 1000000 * Z.of_nat (length (immediate_win_cells g b piece))
     + window_sum g b piece)%Z.
Proof.
  intros Hwf. unfold evaluate_board_state.
  rewrite immediate_win_check_eq. cbv beta iota zeta. unfold fst.
  rewrite negative_diagonal_scoring_eq, positive_diagonal_scoring_eq,
    vertical_scoring_eq, horizontal_scoring_eq by done.
  unfold window_sum, all_windows, center_column_bonus.
  rewrite !map_app, !Zsum_app. lia.
Qed.

(** C4, as the code has it.  On a board of the game's shape the score is
    the center-column bonus, plus 1000000 for every empty cell at which a
    disc of [piece] would complete a winning pattern, plus the sum of
    [assess_line] over every horizontal, vertical and diagonal window. *)
Theorem evaluate_board_state_closed_form g (b : board) piece :
  wf_board g b →
  (evaluate_board_state g b piece).1
  = (center_column_bonus g b piece
     + 1000000 * Z.of_nat (length (immediate_win_cells g b piece))
     + window_sum g b piece)%Z.
Proof. apply evaluate_board_state_sum. Qed.

Lemma evaluate_board_state_closed_form_witness :
  (evaluate_board_state g44 board_three_in_row PIECE_HUMAN).1
  = (center_column_bonus g44 board_three_in_row PIECE_HUMAN
     + 1000000 * Z.of_nat (length (immediate_win_cells g44 board_three_in_row PIECE_HUMAN))
     + window_sum g44 board_three_in_row PIECE_HUMAN)%Z.
Proof.
  apply (evaluate_board_state_closed_form g44 board_three_in_row PIECE_HUMAN).
  apply wf_boardb_spec. reflexivity.
Defined.

(** C4 as stated fails: with three discs in a row and the fourth cell empty
    the code returns 1000053 where center bonus and windows add up to 53. *)
Lemma evaluate_board_state_not_spec_score :
  wf_board g44 board_three_in_row
  ∧ PIECE_HUMAN ≠ PIECE_EMPTY
  ∧ (evaluate_board_state g44 board_three_in_row PIECE_HUMAN).1 = 1000053%Z
  ∧ spec_score g44 board_three_in_row PIECE_HUMAN = 53%Z.
Proof.
  split; [by apply wf_boardb_spec|]. split; [done|]. split; vm_compute; reflexivity.
Qed.

(** ** Column indices from outside: [is_column_open] *)

Lemma np_index_Some n i k : np_index n i = Some k → k < n.
Proof. unfold np_index. repeat case_match; intros [= <-]; lia. Qed.

Lemma is_column_open_wf g (b : board) col :
  wf_board g b → 1 ≤ row_count g →
  is_column_open g b col
  = (c ← np_index (column_count g) col;
     Some (cell b (row_count g - 1) c =? PIECE_EMPTY)%Z).
Proof.
  intros [Hlen Hrows] Hr. unfold is_column_open. rewrite Hlen.
  assert (np_index (row_count g) (Z.of_nat (row_count g) - 1) = Some (row_count g - 1))
    as ->.
  { unfold np_index. repeat case_match; try lia. f_equal. lia. }
  simpl. destruct (lookup_lt_is_Some_2 b (row_count g - 1)) as [line Hline]; [lia|].
  rewrite Hline. simpl. rewrite Forall_lookup in Hrows. rewrite (Hrows _ _ Hline).
  destruct (np_index (column_count g) col) as [c|] eqn:E; simpl; [|done].
  apply np_index_Some in E.
  destruct (lookup_lt_is_Some_2 line c) as [x Hx]; [by rewrite (Hrows _ _ Hline)|].
  rewrite Hx. simpl. rewrite (cell_lookup _ _ _ _ Hline).
  by rewrite (nth_lookup_Some _ _ _ _ Hx).
Qed.

Lemma is_column_open_range g (b : board) (col : nat) :
  wf_board g b → 1 ≤ row_count g → col < column_count g →
  is_column_open g b (Z.of_nat col)
  = Some (cell b (row_count g - 1) col =? PIECE_EMPTY)%Z.
Proof.
  intros Hwf Hr Hc. rewrite is_column_open_wf by done.
  unfold np_index. repeat case_match; try lia. simpl. by rewrite Nat2Z.id.
Qed.

(** C9, as the code has it.  A column at or beyond [column_count], or below
    [-column_count], makes [is_column_open] fail with numpy's [IndexError];
    a negative column from [-column_count] on is answered for the column
    counted from the right end. *)
Theorem is_column_open_outside_range g (b : board) (col : Z) :
  wf_board g b → 1 ≤ row_count g →
  ((Z.of_nat (column_count g) ≤ col ∨ col < - Z.of_nat (column_count g))%Z →
     is_column_open g b col = None)
  ∧ ((- Z.of_nat (column_count g) ≤ col < 0)%Z →
     is_column_open g b col
     = Some (cell b (row_count g - 1) (Z.to_nat (Z.of_nat (column_count g) + col))
             =? PIECE_EMPTY)%Z).
Proof.
  intros Hwf Hr. rewrite is_column_open_wf by done. unfold np_index.
  split; intros H; repeat case_match; try lia; done.
Qed.

Lemma is_column_open_outside_range_witness :
  is_column_open g44 board_late_near_win 4 = None
  ∧ is_column_open g44 board_late_near_win (-1) = Some true.
Proof.
  assert (wf_board g44 board_late_near_win) as Hwf by (by apply wf_boardb_spec).
  assert (1 ≤ row_count g44) as Hr by (simpl; lia).
  split.
  - apply (is_column_open_outside_range g44 board_late_near_win 4 Hwf Hr).
    simpl. lia.
  - apply (is_column_open_outside_range g44 board_late_near_win (-1) Hwf Hr).
    simpl. lia.
Defined.

(** C9 as stated fails: column -1 is outside [0..cols-1], and the call
    answers for the last column instead of failing. *)
Lemma is_column_open_negative_answers :
  wf_board g44 (create_board g44)
  ∧ ¬ (0 ≤ -1 < Z.of_nat (column_count g44))%Z
  ∧ is_column_open g44 (create_board g44) (-1) = Some true.
Proof.
  split; [by apply wf_boardb_spec|]. split; [lia|]. reflexivity.
Qed.

(** ** Dynamic depth *)

Lemma calculate_dynamic_depth_cases g (b : board) :
  calculate_dynamic_depth g b =
  if 2 * empty_cells b <? row_count g * column_count g then 8
  else if is_near_win g b then 10 else 7.
Proof.
  unfold calculate_dynamic_depth. cbv zeta.
  destruct (2 * empty_cells b <? _) eqn:E1; [done|].
  destruct (4 * empty_cells b <? _) eqn:E2; [|done].
  apply Nat.ltb_ge in E1. apply Nat.ltb_lt in E2. lia.
Qed.

(** C3, as the code has it.  The depths are alternatives, not a sum.  A
    board at most half filled gets 7 + 3 when [is_near_win] holds and 7
    otherwise.  A board more than half and at most 75 percent filled gets
    7 + 1 whether or not [is_near_win] holds: the near win adds nothing
    there.  Boards more than 75 percent filled are left out of the
    statement; what the code answers there is
    [calculate_dynamic_depth_late_near_win]. *)
Theorem calculate_dynamic_depth_ladder g (b : board) :
  (row_count g * column_count g ≤ 2 * empty_cells b →
     calculate_dynamic_depth g b = if is_near_win g b then 7 + 3 else 7)
  ∧ (2 * empty_cells b < row_count g * column_count g →
     row_count g * column_count g ≤ 4 * empty_cells b →
     calculate_dynamic_depth g b = 7 + 1).
Proof.
  rewrite calculate_dynamic_depth_cases. split.
  - intros H. apply Nat.ltb_ge in H. rewrite H. by destruct (is_near_win g b).
  - intros H _. apply Nat.ltb_lt in H. by rewrite H.
Qed.

Lemma calculate_dynamic_depth_ladder_witness :
  calculate_dynamic_depth g44 board_three_in_row = 10
  ∧ calculate_dynamic_depth g44 (create_board g44) = 7
  ∧ calculate_dynamic_depth g44 board_three_rows = 8
  ∧ is_near_win g44 board_mid_near_win = true
  ∧ calculate_dynamic_depth g44 board_mid_near_win = 8.
Proof.
  split; [|split; [|split; [|split]]].
  - apply (proj1 (calculate_dynamic_depth_ladder g44 board_three_in_row)).
    vm_compute. lia.
  - apply (proj1 (calculate_dynamic_depth_ladder g44 (create_board g44))).
    vm_compute. lia.
  - apply (proj2 (calculate_dynamic_depth_ladder g44 board_three_rows)).
    + vm_compute. lia.
    + vm_compute. lia.
  - reflexivity.
  - apply (proj2 (calculate_dynamic_depth_ladder g44 board_mid_near_win)).
    + vm_compute. lia.
    + vm_compute. lia.
Defined.

(** C3 as stated fails: [board_three_in_row] is less than half filled and
    has an open three, the cumulative policy gives 7 + 1 and the code
    returns 7 + 3. *)
Lemma calculate_dynamic_depth_not_cumulative :
  wf_board g44 board_three_in_row
  ∧ spec_has_open_three g44 board_three_in_row PIECE_HUMAN = true
  ∧ spec_choose_depth g44 board_three_in_row = 8
  ∧ calculate_dynamic_depth g44 board_three_in_row = 10.
Proof.
  split; [by apply wf_boardb_spec|]. repeat split; vm_compute; reflexivity.
Qed.

(** The second fill check is never reached: on a board with 15 of 16 cells
    filled and an open three the result is 7 + 1, where the cumulative
    policy gives 7 + 3. *)
Lemma calculate_dynamic_depth_late_near_win :
  wf_board g44 board_late_near_win
  ∧ (4 * empty_cells board_late_near_win <? row_count g44 * column_count g44) = true
  ∧ is_near_win g44 board_late_near_win = true
  ∧ calculate_dynamic_depth g44 board_late_near_win = 8
  ∧ spec_choose_depth g44 board_late_near_win = 10.
Proof.
  split; [by apply wf_boardb_spec|]. repeat split; vm_compute; reflexivity.
Qed.

(** ** The near-win scan *)

Lemma near_win_window_iff piece (line : nat → Z) :
  piece ≠ PIECE_EMPTY →
  near_win_window piece line = true
  ↔ map line (seq 0 WINNING_LENGTH) = [piece; piece; piece; PIECE_EMPTY].
Proof.
  intros Hp. unfold near_win_window, WINNING_LENGTH, PIECE_EMPTY in *. simpl.
  destruct (Z.eqb_spec (line 0) piece) as [E0|E0];
  destruct (Z.eqb_spec (line 1) piece) as [E1|E1];
  destruct (Z.eqb_spec (line 2) piece) as [E2|E2];
    (split; [intros H; try discriminate H | intros [= ? ? ? ?]; try congruence]).
  - rewrite E0, E1, E2 in *. simpl in H.
    destruct (Z.eqb_spec piece 0) as [?|_]; [done|]. simpl in H.
    rewrite orb_false_r in H. apply Z.eqb_eq in H. by rewrite H.
  - simpl. rewrite orb_false_r. replace (line 3) with 0%Z by done.
    simpl. by rewrite !orb_true_r.
Qed.

Lemma scan_iff piece (line : nat → nat → nat → Z) (rs cs : list nat) :
  piece ≠ PIECE_EMPTY →
  existsb (λ c, existsb (λ r, near_win_window piece (line r c)) rs) cs = true
  ↔ ∃ r c, r ∈ rs ∧ c ∈ cs
      ∧ map (line r c) (seq 0 WINNING_LENGTH) = [piece; piece; piece; PIECE_EMPTY].
Proof.
  intros Hp. rewrite existsb_exists. split.
  - intros (c & Hc & H). apply existsb_exists in H as (r & Hr & H).
    apply near_win_window_iff in H; [|done].
    exists r, c. by rewrite !list_elem_of_In.
  - intros (r & c & Hr & Hc & H). exists c. rewrite <- list_elem_of_In. split; [done|].
    apply existsb_exists. exists r. rewrite <- list_elem_of_In. split; [done|].
    by apply near_win_window_iff.
Qed.

Lemma elem_of_windows (W : nat → nat → list Z) (outer inner : list nat) (w : list Z) :
  w ∈ flat_map (λ x, map (W x) inner) outer
  ↔ ∃ x y, x ∈ outer ∧ y ∈ inner ∧ W x y = w.
Proof.
  rewrite list_elem_of_In, in_flat_map. split.
  - intros (x & Hx & H). apply in_map_iff in H as (y & <- & Hy).
    exists x, y. by rewrite !list_elem_of_In.
  - intros (x & y & Hx & Hy & <-). exists x. rewrite <- list_elem_of_In. split; [done|].
    apply in_map_iff. exists y. by rewrite <- list_elem_of_In.
Qed.

Lemma near_win_piece_iff g (b : board) piece :
  piece ≠ PIECE_EMPTY →
  near_win_piece g b piece = true
  ↔ [piece; piece; piece; PIECE_EMPTY] ∈ all_windows g b.
Proof.
  intros Hp. unfold near_win_piece, all_windows.
  rewrite !orb_true_iff, !elem_of_app.
  rewrite !(scan_iff piece) by done.
  unfold horizontal_windows, vertical_windows, positive_diagonal_windows,
    negative_diagonal_windows.
  rewrite !elem_of_windows.
  unfold window, WINNING_LENGTH. simpl.
  split.
  - intros [[[H|H]|H]|H]; destruct H as (r & c & Hr & Hc & H).
    + left. exists r, c. by rewrite !Nat.add_0_r in *.
    + right; left. exists c, r. by rewrite !Nat.add_0_r in *.
    + right; right; left. exists r, c. by rewrite !Nat.add_0_r in *.
    + right; right; right. apply elem_of_seq in Hr. exists (r - 3), c.
      split; [apply elem_of_seq; lia|]. split; [done|].
      replace (r - 3 + 3) with r by lia. by rewrite !Nat.add_0_r in *.
  - intros [H|[H|[H|H]]]; destruct H as (x & y & Hx & Hy & H).
    + left; left; left. exists x, y. by rewrite !Nat.add_0_r in *.
    + left; left; right. exists y, x. by rewrite !Nat.add_0_r in *.
    + left; right. exists x, y. by rewrite !Nat.add_0_r in *.
    + right. apply elem_of_seq in Hx. exists (x + 3), y.
      split; [apply elem_of_seq; lia|]. split; [done|].
      by rewrite !Nat.add_0_r in *.
Qed.

(** C6, as the code has it.  For a non-empty piece the scan is true exactly
    when some window, read in its scanning direction, is three cells of the
    piece followed by an empty fourth cell; [is_near_win] asks this for the
    human's and for the AI's piece. *)
Theorem is_near_win_iff g (b : board) piece :
  piece ≠ PIECE_EMPTY →
  (near_win_piece g b piece = true
   ↔ [piece; piece; piece; PIECE_EMPTY] ∈ all_windows g b)
  ∧ (is_near_win g b = true
     ↔ [PIECE_HUMAN; PIECE_HUMAN; PIECE_HUMAN; PIECE_EMPTY] ∈ all_windows g b
       ∨ [PIECE_AI; PIECE_AI; PIECE_AI; PIECE_EMPTY] ∈ all_windows g b).
Proof.
  intros Hp. split; [by apply near_win_piece_iff|].
  unfold is_near_win. simpl. rewrite orb_false_r, orb_true_iff.
  by rewrite !near_win_piece_iff.
Qed.

Lemma is_near_win_iff_witness :
  (near_win_piece g44 board_late_near_win PIECE_HUMAN = true
   ↔ [PIECE_HUMAN; PIECE_HUMAN; PIECE_HUMAN; PIECE_EMPTY]
       ∈ all_windows g44 board_late_near_win)
  ∧ (is_near_win g44 board_late_near_win = true
     ↔ [PIECE_HUMAN; PIECE_HUMAN; PIECE_HUMAN; PIECE_EMPTY]
         ∈ all_windows g44 board_late_near_win
       ∨ [PIECE_AI; PIECE_AI; PIECE_AI; PIECE_EMPTY]
         ∈ all_windows g44 board_late_near_win).
Proof.
  apply (is_near_win_iff g44 board_late_near_win PIECE_HUMAN). discriminate.
Defined.

(** C6 as stated fails: row 0 of [board_gap_three] is a window with exactly
    three cells of piece 1 and an empty cell, and the scan says no. *)
Lemma near_win_misses_gap_three :
  spec_has_open_three g44 board_gap_three PIECE_HUMAN = true
  ∧ near_win_piece g44 board_gap_three PIECE_HUMAN = false
  ∧ is_near_win g44 board_gap_three = false.
Proof. repeat split; vm_compute; reflexivity. Qed.

(** ** Playable columns and the children of a node *)

Lemma elem_of_open_columns g (b : board) col :
  col ∈ open_columns g b
  ↔ col < column_count g ∧ is_column_open g b (Z.of_nat col) = Some true.
Proof.
  unfold open_columns. rewrite list_elem_of_filter, elem_of_seq.
  split; intros [? ?]; split; (done || lia).
Qed.

Lemma find_playable_columns_open g (b : board) col :
  col ∈ find_playable_columns g b → col ∈ open_columns g b.
Proof.
  unfold find_playable_columns.
  destruct (winning_columns g b) as [|c l] eqn:E; [done|].
  rewrite <- E. unfold winning_columns. rewrite list_elem_of_filter. by intros [_ ?].
Qed.

Lemma find_playable_columns_sublist g (b : board) :
  find_playable_columns g b `sublist_of` seq 0 (column_count g).
Proof.
  unfold find_playable_columns.
  destruct (winning_columns g b) as [|c l] eqn:E.
  - apply sublist_filter.
  - rewrite <- E. unfold winning_columns, open_columns.
    etrans; apply sublist_filter.
Qed.

(** A playable column has an open row, so [child] always places its disc. *)
Lemma find_open_row_playable g (b : board) col :
  wf_board g b → 1 ≤ row_count g → col ∈ find_playable_columns g b →
  ∃ row, find_open_row g b col = Some row.
Proof.
  intros Hwf Hr Hcol. apply find_playable_columns_open, elem_of_open_columns in Hcol
    as [Hc Hopen].
  rewrite is_column_open_range in Hopen by done. injection Hopen as Hopen.
  unfold find_open_row.
  destruct (List.find _ _) as [row|] eqn:E; [by eexists|].
  pose proof (find_none _ _ E (row_count g - 1)) as H.
  rewrite H in Hopen; [done|]. apply in_seq. lia.
Qed.

Lemma minimax_expand random_choice g depth (b : board) alpha beta side T :
  T !! (b, S depth, side) = None → is_game_over g b = false →
  minimax random_choice g (S depth) b alpha beta side T
  = let cols := find_playable_columns g b in
    let '(r, T') :=
      if side then
        maximizing_loop g (minimax random_choice g depth) b cols
          (Some (random_choice T b (S depth) side cols)) NegInf alpha beta T
      else
        minimizing_loop g (minimax random_choice g depth) b cols
          (Some (random_choice T b (S depth) side cols)) PosInf alpha beta T in
    (r, b, <[(b, S depth, side) := r]> T').
Proof. intros HT Hover. simpl. by rewrite HT, Hover. Qed.

Lemma minimax_cached random_choice g depth (b : board) alpha beta side T r :
  T !! (b, depth, side) = Some r →
  minimax random_choice g depth b alpha beta side T = (r, b, T).
Proof. intros HT. destruct depth; simpl; by rewrite HT. Qed.

Lemma minimax_unexpanded random_choice g depth (b : board) alpha beta side T :
  T !! (b, depth, side) = None → depth = 0 ∨ is_game_over g b = true →
  minimax random_choice g depth b alpha beta side T
  = ((terminal_or_leaf g b depth (is_game_over g b)).1, b, T).
Proof.
  intros HT Hcase.
  pose proof (terminal_or_leaf_board g b depth (is_game_over g b)) as Hb.
  destruct depth as [|depth']; simpl; rewrite HT.
  - by destruct (terminal_or_leaf _ _ _ _) as [r b']; simpl in *; subst.
  - destruct Hcase as [|Hover]; [done|]. rewrite Hover in *.
    by destruct (terminal_or_leaf _ _ _ _) as [r b']; simpl in *; subst.
Qed.

Lemma find_playable_columns_nonempty g (b : board) :
  is_game_over g b = false → find_playable_columns g b ≠ [].
Proof.
  unfold is_game_over. repeat case_match; try done.
  intros _ E. by rewrite E in *.
Qed.

(** *** The loops, child by child *)

(** What a loop returns from the state it stops in. *)
Lemma maximizing_loop_nil g rec (b : board) st :
  maximizing_loop g rec b [] (ls_column st) (ls_value st) (ls_alpha st)
    (ls_beta st) (ls_table st)
  = ((ls_column st, ls_value st), ls_table st).
Proof. reflexivity. Qed.

Lemma maximizing_loop_cons g rec (b : board) col cols st :
  maximizing_loop g rec b (col :: cols) (ls_column st) (ls_value st) (ls_alpha st)
    (ls_beta st) (ls_table st)
  = let st1 := maximizing_visit g rec b st col in
    if cut_off st1 then ((ls_column st1, ls_value st1), ls_table st1)
    else maximizing_loop g rec b cols (ls_column st1) (ls_value st1) (ls_alpha st1)
           (ls_beta st1) (ls_table st1).
Proof.
  cbn [maximizing_loop]. unfold maximizing_visit, cut_off.
  destruct (rec _ _ _ _ _) as [[r b0] T0].
  by destruct (score_lt _ _).
Qed.

Lemma minimizing_loop_nil g rec (b : board) st :
  minimizing_loop g rec b [] (ls_column st) (ls_value st) (ls_alpha st)
    (ls_beta st) (ls_table st)
  = ((ls_column st, ls_value st), ls_table st).
Proof. reflexivity. Qed.

Lemma minimizing_loop_cons g rec (b : board) col cols st :
  minimizing_loop g rec b (col :: cols) (ls_column st) (ls_value st) (ls_alpha st)
    (ls_beta st) (ls_table st)
  = let st1 := minimizing_visit g rec b st col in
    if cut_off st1 then ((ls_column st1, ls_value st1), ls_table st1)
    else minimizing_loop g rec b cols (ls_column st1) (ls_value st1) (ls_alpha st1)
           (ls_beta st1) (ls_table st1).
Proof.
  cbn [minimizing_loop]. unfold minimizing_visit, cut_off.
  destruct (rec _ _ _ _ _) as [[r b0] T0].
  by destruct (score_lt _ _).
Qed.

(** A [for] loop with a [break] at the end of its body visits a non-empty
    prefix of its list, in the list's order: no visit before the last one
    ends cut off, and when columns are left over the last one does. *)
Lemma loop_with_break_visits
    (loop : list nat → loop_state → search_result * table)
    (visit : loop_state → nat → loop_state) :
  (∀ st, loop [] st = ((ls_column st, ls_value st), ls_table st)) →
  (∀ col cols st,
     loop (col :: cols) st
     = if cut_off (visit st col)
       then ((ls_column (visit st col), ls_value (visit st col)),
             ls_table (visit st col))
       else loop cols (visit st col)) →
  ∀ cols st, cols ≠ [] →
  ∃ visited skipped,
    cols = visited ++ skipped
    ∧ visited ≠ []
    ∧ (∀ p q, visited = p ++ q → p ≠ [] → q ≠ [] →
         cut_off (fold_left visit p st) = false)
    ∧ (skipped ≠ [] → cut_off (fold_left visit visited st) = true)
    ∧ loop cols st
      = ((ls_column (fold_left visit visited st),
          ls_value (fold_left visit visited st)),
         ls_table (fold_left visit visited st)).
Proof.
  intros Hnil Hcons cols. induction cols as [|col cols IH]; intros st Hne; [done|].
  rewrite Hcons. destruct (cut_off (visit st col)) eqn:Hcut.
  - exists [col], cols. repeat split; try done.
    intros p q Hpq Hp Hq. destruct p as [|x p]; [done|].
    injection Hpq as _ Hpq. symmetry in Hpq. apply app_eq_nil in Hpq as [_ ->]. done.
  - destruct cols as [|col' cols'].
    + exists [col], []. rewrite Hnil. repeat split; try done.
      intros p q Hpq Hp Hq. destruct p as [|x p]; [done|].
      injection Hpq as _ Hpq. symmetry in Hpq. apply app_eq_nil in Hpq as [_ ->]. done.
    + destruct (IH (visit st col)) as (visited & skipped & Hcols & Hv & Hpre & Hskip & Hres);
        [done|].
      exists (col :: visited), skipped. split; [by rewrite Hcols|]. split; [done|].
      split; [|split; [exact Hskip|exact Hres]].
      intros p q Hpq Hp Hq. destruct p as [|x p]; [done|].
      injection Hpq as <- Hpq. destruct p as [|y p]; [exact Hcut|].
      cbn [fold_left]. apply (Hpre (y :: p) q Hpq); done.
Qed.

(** C7, as the code has it.  A node that expands runs its loop over
    [find_playable_columns]: a list in increasing column order without
    repetition, made of open columns only; it is every open column when no
    open column completes a winning pattern for a disc of value
    [PLAYER_AI], and otherwise only the columns that do.  The loop visits a
    non-empty prefix [visited] of that list, left to right, with one
    recursive call per visited column on the board with the disc dropped in
    it ([maximizing_visit], [minimizing_visit]); it goes on to the next
    column only while [alpha < beta], the columns after a cut-off are not
    visited, and the node returns and stores what the last visit leaves. *)
Theorem expand_children random_choice g depth (b : board) alpha beta (side : bool) T :
  T !! (b, S depth, side) = None → is_game_over g b = false →
  let visit : loop_state → nat → loop_state :=
    if side then maximizing_visit g (minimax random_choice g depth) b
    else minimizing_visit g (minimax random_choice g depth) b in
  let start :=
    mkLoop (Some (random_choice T b (S depth) side (find_playable_columns g b)))
      (if side then NegInf else PosInf) alpha beta T in
  (∃ visited skipped,
     find_playable_columns g b = visited ++ skipped
     ∧ visited ≠ []
     ∧ (∀ p q, visited = p ++ q → p ≠ [] → q ≠ [] →
          cut_off (fold_left visit p start) = false)
     ∧ (skipped ≠ [] → cut_off (fold_left visit visited start) = true)
     ∧ minimax random_choice g (S depth) b alpha beta side T
       = let final := fold_left visit visited start in
         ((ls_column final, ls_value final), b,
          <[(b, S depth, side) := (ls_column final, ls_value final)]>
            (ls_table final)))
  ∧ find_playable_columns g b `sublist_of` seq 0 (column_count g)
  ∧ (∀ col, col ∈ find_playable_columns g b →
       is_column_open g b (Z.of_nat col) = Some true)
  ∧ ((∀ col, col ∈ open_columns g b → column_wins g b col = false) →
       find_playable_columns g b = open_columns g b)
  ∧ ((∃ col, col ∈ open_columns g b ∧ column_wins g b col = true) →
       ∀ col, col ∈ find_playable_columns g b
              ↔ col ∈ open_columns g b ∧ column_wins g b col = true).
Proof.
  intros HT Hover visit start. split.
  { assert (find_playable_columns g b ≠ []) as Hne
      by (by apply find_playable_columns_nonempty).
    rewrite minimax_expand by done. cbv beta zeta.
    destruct side.
    - destruct (loop_with_break_visits
                  (λ cols st, maximizing_loop g (minimax random_choice g depth) b cols
                     (ls_column st) (ls_value st) (ls_alpha st) (ls_beta st)
                     (ls_table st))
                  visit
                  (maximizing_loop_nil g _ b)
                  (λ col cols st, maximizing_loop_cons g _ b col cols st)
                  (find_playable_columns g b) start Hne)
        as (visited & skipped & Hcols & Hv & Hpre & Hskip & Hres).
      exists visited, skipped. repeat split; try done.
      cbn [ls_column ls_value ls_alpha ls_beta ls_table start] in Hres.
      by rewrite Hres.
    - destruct (loop_with_break_visits
                  (λ cols st, minimizing_loop g (minimax random_choice g depth) b cols
                     (ls_column st) (ls_value st) (ls_alpha st) (ls_beta st)
                     (ls_table st))
                  visit
                  (minimizing_loop_nil g _ b)
                  (λ col cols st, minimizing_loop_cons g _ b col cols st)
                  (find_playable_columns g b) start Hne)
        as (visited & skipped & Hcols & Hv & Hpre & Hskip & Hres).
      exists visited, skipped. repeat split; try done.
      cbn [ls_column ls_value ls_alpha ls_beta ls_table start] in Hres.
      by rewrite Hres. }
  split; [apply find_playable_columns_sublist|]. split; [|split].
  - intros col Hcol. apply find_playable_columns_open in Hcol.
    by apply elem_of_open_columns in Hcol as [_ ?].
  - intros Hnone. unfold find_playable_columns.
    destruct (winning_columns g b) as [|c l] eqn:E; [done|].
    assert (c ∈ winning_columns g b) as Hc by (rewrite E; left).
    unfold winning_columns in Hc. apply list_elem_of_filter in Hc as [Hw Hc].
    by rewrite (Hnone _ Hc) in Hw.
  - intros (c & Hc & Hw) col. unfold find_playable_columns.
    destruct (winning_columns g b) as [|c' l] eqn:E.
    + assert (c ∈ winning_columns g b) as Hin
        by (unfold winning_columns; by apply list_elem_of_filter).
      rewrite E in Hin. by apply elem_of_nil in Hin.
    + rewrite <- E. unfold winning_columns. rewrite list_elem_of_filter. tauto.
Qed.

Lemma expand_children_witness :
  (∃ visited skipped,
     find_playable_columns g44 board_three_in_row = visited ++ skipped
     ∧ visited ≠ []
     ∧ minimax first_choice g44 1 board_three_in_row NegInf PosInf true ∅
       = let final :=
           fold_left (maximizing_visit g44 (minimax first_choice g44 0)
                        board_three_in_row)
             visited
             (mkLoop (Some (first_choice ∅ board_three_in_row 1 true
                              (find_playable_columns g44 board_three_in_row)))
                NegInf NegInf PosInf ∅) in
         ((ls_column final, ls_value final), board_three_in_row,
          <[(board_three_in_row, 1, true) := (ls_column final, ls_value final)]>
            (ls_table final)))
  ∧ find_playable_columns g44 board_three_in_row `sublist_of` seq 0 (column_count g44).
Proof.
  pose proof (expand_children first_choice g44 0 board_three_in_row NegInf PosInf true ∅)
    as H.
  destruct H as ((visited & skipped & Hcols & Hv & _ & _ & Hres) & Hsub & _);
    [reflexivity|reflexivity|].
  split; [|exact Hsub]. exists visited, skipped. exact (conj Hcols (conj Hv Hres)).
Defined.

(** C7 as stated fails: [board_three_in_row] is not terminal and has four
    open columns, yet the loop of the node runs over column 3 alone. *)
Lemma expand_skips_open_columns :
  is_game_over g44 board_three_in_row = false
  ∧ open_columns g44 board_three_in_row = [0; 1; 2; 3]
  ∧ find_playable_columns g44 board_three_in_row = [3].
Proof. repeat split; vm_compute; reflexivity. Qed.

(** ** Classification of a node *)

Lemma is_winning_pattern_PLAYER_HUMAN g (b : board) :
  is_winning_pattern g b PLAYER_HUMAN = false.
Proof. reflexivity. Qed.

(** What the code does at a node that is not in the table, in order: a
    winning pattern of the value [PLAYER_AI] (the human's disc) gives the win
    score; otherwise no playable column gives 0; otherwise depth 0 gives the
    evaluation for the value [PLAYER_AI]; the loss score is never given. *)
Lemma minimax_classification random_choice g depth (b : board) alpha beta side T :
  T !! (b, depth, side) = None → depth = 0 ∨ is_game_over g b = true →
  (minimax random_choice g depth b alpha beta side T).1.1
  = if is_winning_pattern g b PIECE_HUMAN then (None, Fin (win_score g depth))
    else if length (find_playable_columns g b) =? 0 then (None, Fin 0)
    else (None, Fin (evaluate_board_state g b PIECE_HUMAN).1).
Proof.
  intros HT Hcase. rewrite minimax_unexpanded by done. simpl.
  unfold terminal_or_leaf, is_game_over.
  change PLAYER_AI with PIECE_HUMAN. rewrite is_winning_pattern_PLAYER_HUMAN.
  destruct (is_winning_pattern g b PIECE_HUMAN); [done|].
  destruct (length (find_playable_columns g b) =? 0); [done|].
  by destruct (evaluate_board_state g b PIECE_HUMAN).
Qed.

(** C1 at two boards.  Where the human's piece has four in a row and the
    AI's has not, the node gets the win score [POSITIVE - (42 - depth)]
    instead of the loss score; where the AI's piece has four in a row, the
    node is not terminal: at depth 0 it gets the heuristic value and at
    depth 1 it expands. *)
Theorem minimax_misclassifies_fours :
  is_winning_pattern g67 board_human_four PIECE_HUMAN = true
  ∧ is_winning_pattern g67 board_human_four PIECE_AI = false
  ∧ (minimax first_choice g67 3 board_human_four NegInf PosInf true ∅).1.1
    = (None, Fin (POSITIVE - (42 - 3)))
  ∧ is_winning_pattern g67 board_ai_four PIECE_AI = true
  ∧ is_winning_pattern g67 board_ai_four PIECE_HUMAN = false
  ∧ (minimax first_choice g67 0 board_ai_four NegInf PosInf true ∅).1.1
    = (None, Fin (-12))
  ∧ (minimax first_choice g67 1 board_ai_four NegInf PosInf true ∅).1.1
    = (Some 0, Fin 1000038).
Proof. repeat split; vm_compute; reflexivity. Qed.

(** ** The column a search returns *)

Section Column.

Variable random_choice : table → board → nat → bool → list nat → nat.
Variable g : Connect4Game.
Variable rec : board → score → score → bool → table → search_result * board * table.

Lemma maximizing_loop_column (b : board) cols column value alpha beta T :
  let r := (maximizing_loop g rec b cols column value alpha beta T).1 in
  r.1 = column ∨ ∃ col, col ∈ cols ∧ r.1 = Some col.
Proof.
  revert column value alpha T. induction cols as [|col cols IH];
    intros column value alpha T; simpl; [by left|].
  destruct (rec _ alpha beta false T) as [[r0 b0] T0].
  destruct (score_lt value r0.2).
  - destruct (score_ge _ beta); simpl.
    + right. exists col. split; [left|done].
    + destruct (IH (Some col) r0.2 (score_max alpha r0.2) T0) as [H|(c & Hc & H)].
      * right. exists col. split; [left|done].
      * right. exists c. split; [by right|done].
  - destruct (score_ge _ beta); simpl; [by left|].
    destruct (IH column value (score_max alpha value) T0) as [H|(c & Hc & H)].
    * by left.
    * right. exists c. split; [by right|done].
Qed.

Lemma minimizing_loop_column (b : board) cols column value alpha beta T :
  let r := (minimizing_loop g rec b cols column value alpha beta T).1 in
  r.1 = column ∨ ∃ col, col ∈ cols ∧ r.1 = Some col.
Proof.
  revert column value beta T. induction cols as [|col cols IH];
    intros column value beta T; simpl; [by left|].
  destruct (rec _ alpha beta true T) as [[r0 b0] T0].
  destruct (score_lt r0.2 value).
  - destruct (score_ge alpha _); simpl.
    + right. exists col. split; [left|done].
    + destruct (IH (Some col) r0.2 (score_min beta r0.2) T0) as [H|(c & Hc & H)].
      * right. exists col. split; [left|done].
      * right. exists c. split; [by right|done].
  - destruct (score_ge alpha _); simpl; [by left|].
    destruct (IH column value (score_min beta value) T0) as [H|(c & Hc & H)].
    * by left.
    * right. exists c. split; [by right|done].
Qed.

End Column.

Lemma minimax_column_expand random_choice g depth (b : board) alpha beta side T :
  (∀ T b depth side l, l ≠ [] → random_choice T b depth side l ∈ l) →
  table_columns_playable g T →
  1 ≤ depth → is_game_over g b = false →
  ∃ col, (minimax random_choice g depth b alpha beta side T).1.1.1 = Some col
         ∧ col ∈ find_playable_columns g b.
Proof.
  intros Hrandom Htable Hdepth Hover.
  destruct (T !! (b, depth, side)) as [r|] eqn:HT.
  - rewrite (minimax_cached _ _ _ _ _ _ _ _ _ HT). simpl. by eapply Htable.
  - destruct depth as [|depth']; [lia|].
    rewrite minimax_expand by done. cbv zeta.
    pose proof (Hrandom T b (S depth') side _ (find_playable_columns_nonempty _ _ Hover))
      as Hseed.
    destruct side.
    + pose proof (maximizing_loop_column g (minimax random_choice g depth') b
        (find_playable_columns g b) (Some (random_choice T b (S depth') true (find_playable_columns g b)))
        NegInf alpha beta T) as H.
      destruct (maximizing_loop _ _ _ _ _ _ _ _ _) as [r T']. simpl in *.
      destruct H as [H|(c & Hc & H)]; eauto.
    + pose proof (minimizing_loop_column g (minimax random_choice g depth') b
        (find_playable_columns g b) (Some (random_choice T b (S depth') false (find_playable_columns g b)))
        PosInf alpha beta T) as H.
      destruct (minimizing_loop _ _ _ _ _ _ _ _ _) as [r T']. simpl in *.
      destruct H as [H|(c & Hc & H)]; eauto.
Qed.

(** C10.  With a table whose entries name playable columns (the empty table,
    or any table [minimax] has filled), at depth 1 or more on a board where
    the game is not over the returned column is one of
    [find_playable_columns]: an in-range column whose top cell is empty.  A
    column of [None] comes only from depth 0 or a finished game. *)
Theorem minimax_column_playable random_choice g depth (b : board) alpha beta side T :
  (∀ T b depth side l, l ≠ [] → random_choice T b depth side l ∈ l) →
  table_columns_playable g T →
  wf_board g b → 1 ≤ row_count g →
  let column := (minimax random_choice g depth b alpha beta side T).1.1.1 in
  (1 ≤ depth → is_game_over g b = false →
     ∃ col, column = Some col
            ∧ col ∈ find_playable_columns g b
            ∧ col < column_count g
            ∧ cell b (row_count g - 1) col = PIECE_EMPTY)
  ∧ (column = None → depth = 0 ∨ is_game_over g b = true).
Proof.
  intros Hrandom Htable Hwf Hr column. split.
  - intros Hdepth Hover.
    destruct (minimax_column_expand random_choice g depth b alpha beta side T)
      as (col & Hcol & Hin); try done.
    exists col. split; [done|]. split; [done|].
    apply find_playable_columns_open, elem_of_open_columns in Hin as [Hlt Hopen].
    split; [done|].
    rewrite is_column_open_range in Hopen by done.
    injection Hopen as Hopen. by apply Z.eqb_eq.
  - intros Hnone. destruct depth as [|depth']; [by left|]. right.
    destruct (is_game_over g b) eqn:Hover; [done|].
    destruct (minimax_column_expand random_choice g (S depth') b alpha beta side T)
      as (col & Hcol & _); try done; [lia|].
    unfold column in Hnone. congruence.
Qed.

Lemma first_choice_elem T b depth side (l : list nat) :
  l ≠ [] → first_choice T b depth side l ∈ l.
Proof. destruct l; [done|]. intros _. left. Qed.

Lemma table_columns_playable_empty g : table_columns_playable g ∅.
Proof. intros b depth side r H. by rewrite lookup_empty in H. Qed.

Lemma minimax_column_playable_witness :
  ∃ col, (minimax first_choice g44 2 board_three_in_row NegInf PosInf true ∅).1.1.1
         = Some col
         ∧ col ∈ find_playable_columns g44 board_three_in_row
         ∧ col < column_count g44
         ∧ cell board_three_in_row (row_count g44 - 1) col = PIECE_EMPTY.
Proof.
  apply (minimax_column_playable first_choice g44 2 board_three_in_row
           NegInf PosInf true ∅).
  - exact first_choice_elem.
  - exact (table_columns_playable_empty g44).
  - apply wf_boardb_spec. reflexivity.
  - simpl. lia.
  - lia.
  - reflexivity.
Defined.

(** ** Terminal scores against the evaluation *)

Lemma assess_line_bounds (w : list Z) piece : (-25 ≤ assess_line w piece ≤ 1000)%Z.
Proof. unfold assess_line. repeat case_match; lia. Qed.

Lemma Zsum_map_bounds {A} (f : A → Z) (lo hi : Z) (l : list A) :
  (∀ x, lo ≤ f x ≤ hi)%Z →
  (Z.of_nat (length l) * lo ≤ Zsum (map f l) ≤ Z.of_nat (length l) * hi)%Z.
Proof.
  intros Hf. induction l as [|x l IH]; simpl Zsum; [simpl; lia|].
  specialize (Hf x). rewrite length_cons, Nat2Z.inj_succ. lia.
Qed.

Lemma length_windows {A} (W : nat → nat → A) (outer inner : list nat) :
  length (flat_map (λ x, map (W x) inner) outer) = length outer * length inner.
Proof.
  induction outer as [|x outer IH]; simpl; [done|].
  rewrite length_app, length_map, IH. lia.
Qed.

Lemma length_all_windows g (b : board) :
  row_count g ≤ 14 → column_count g ≤ 15 → length (all_windows g b) ≤ 597.
Proof.
  intros Hr Hc. unfold all_windows, horizontal_windows, vertical_windows,
    positive_diagonal_windows, negative_diagonal_windows.
  rewrite !length_app, !length_windows, !length_seq.
  assert (row_count g * (column_count g - 3) ≤ 14 * 12)
    by (apply Nat.mul_le_mono; lia).
  assert (column_count g * (row_count g - 3) ≤ 15 * 11)
    by (apply Nat.mul_le_mono; lia).
  assert ((row_count g - 3) * (column_count g - 3) ≤ 11 * 12)
    by (apply Nat.mul_le_mono; lia).
  lia.
Qed.

Lemma count_le_length (l : list Z) x : count l x ≤ length l.
Proof. unfold count. apply length_filter. Qed.

Lemma evaluate_board_state_bounds g (b : board) piece :
  wf_board g b → row_count g ≤ 14 → column_count g ≤ 15 →
  (-14925 ≤ (evaluate_board_state g b piece).1
   ≤ 597042 + 1000000 * Z.of_nat (length (immediate_win_cells g b piece)))%Z.
Proof.
  intros Hwf Hr Hc. rewrite evaluate_board_state_sum by done.
  pose proof (length_all_windows g b Hr Hc) as Hlen.
  pose proof (Zsum_map_bounds (λ w, assess_line w piece) (-25) 1000 (all_windows g b)
                (λ w, assess_line_bounds w piece)) as Hsum.
  fold (window_sum g b piece) in Hsum.
  pose proof (count_le_length (col_array b (column_count g / 2)) piece) as Hcount.
  unfold col_array in Hcount at 2. rewrite length_map in Hcount.
  destruct Hwf as [Hrows _]. rewrite Hrows in Hcount.
  unfold center_column_bonus. lia.
Qed.

(** C5, as the code has it.  On a board of the game's shape within the
    dimensions [main] accepts, the loss score is strictly below every
    evaluation, and the win score is strictly above it as long as fewer than
    ten empty cells would each complete a four for the evaluated piece; the
    win score grows and the loss score falls strictly with the remaining
    depth. *)
Theorem terminal_scores_against_evaluation g (b : board) piece depth :
  wf_board g b → row_count g ≤ 14 → column_count g ≤ 15 →
  (loss_score g depth < (evaluate_board_state g b piece).1)%Z
  ∧ (length (immediate_win_cells g b piece) ≤ 9 →
       ((evaluate_board_state g b piece).1 < win_score g depth)%Z)
  ∧ (∀ d1 d2, d1 < d2 →
       (win_score g d1 < win_score g d2)%Z ∧ (loss_score g d2 < loss_score g d1)%Z).
Proof.
  intros Hwf Hr Hc.
  pose proof (evaluate_board_state_bounds g b piece Hwf Hr Hc) as [Hlo Hhi].
  assert (row_count g * column_count g ≤ 14 * 15) as Hrc
    by (apply Nat.mul_le_mono; lia).
  unfold win_score, loss_score, POSITIVE, NEGATIVE.
  repeat split; intros; lia.
Qed.

Lemma terminal_scores_against_evaluation_witness :
  (loss_score g44 2 < (evaluate_board_state g44 board_three_in_row PIECE_HUMAN).1)%Z
  ∧ ((evaluate_board_state g44 board_three_in_row PIECE_HUMAN).1 < win_score g44 2)%Z.
Proof.
  destruct (terminal_scores_against_evaluation g44 board_three_in_row PIECE_HUMAN 2)
    as (Hlo & Hhi & _).
  - apply wf_boardb_spec. reflexivity.
  - simpl. lia.
  - simpl. lia.
  - split; [exact Hlo|]. apply Hhi. vm_compute. lia.
Defined.

(** C5 as stated fails: [many_threats_board] is reached by legal alternate
    play on a 7 x 15 board, it is not a finished game, and its evaluation
    for piece 1, which is what a depth-0 node returns, exceeds [POSITIVE]
    itself, hence the win score at every remaining depth up to 105. *)
Lemma evaluation_exceeds_win_score :
  reachable g715 many_threats_board
  ∧ is_winning_pattern g715 many_threats_board PIECE_HUMAN = false
  ∧ is_winning_pattern g715 many_threats_board PIECE_AI = false
  ∧ is_game_over g715 many_threats_board = false
  ∧ (evaluate_board_state g715 many_threats_board PIECE_HUMAN).1 = 10000634%Z
  ∧ (minimax first_choice g715 0 many_threats_board NegInf PosInf true ∅).1.1
    = (None, Fin 10000634)
  ∧ (win_score g715 105 < 10000634)%Z.
Proof.
  split.
  { exists PIECE_HUMAN, many_threats_moves. split; [by left|]. vm_compute. reflexivity. }
  repeat split; vm_compute; reflexivity.
Qed.

(** ** Pruned search against the unpruned search *)

Lemma score_lt_irrefl x : score_lt x x = false.
Proof. destruct x; simpl; [done| |done]. apply Z.ltb_irrefl. Qed.

Lemma score_lt_PosInf x : x ≠ PosInf → score_lt x PosInf = true.
Proof. by destruct x. Qed.

Lemma score_ge_PosInf x : x ≠ PosInf → score_ge x PosInf = false.
Proof. intros H. unfold score_ge. by rewrite score_lt_PosInf. Qed.

Lemma score_max_not_PosInf x y : x ≠ PosInf → y ≠ PosInf → score_max x y ≠ PosInf.
Proof. unfold score_max. by destruct (score_lt x y). Qed.

Lemma fold_left_pointwise {A B} (f h : A → B → A) (l : list B) (a : A) :
  (∀ a x, f a x = h a x) → fold_left f l a = fold_left h l a.
Proof.
  intros Hfh. revert a. induction l as [|x l IH]; intros a; simpl; [done|].
  by rewrite Hfh, IH.
Qed.

Lemma terminal_or_leaf_finite g (b : board) depth t :
  ∃ z, (terminal_or_leaf g b depth t).1.2 = Fin z.
Proof.
  unfold terminal_or_leaf. destruct t; [repeat case_match; by eexists|].
  destruct (evaluate_board_state g b PLAYER_AI). by eexists.
Qed.

Lemma keep_max_finite score_of cols column z :
  (∀ col, ∃ z, score_of col = Fin z) →
  ∃ z', (fold_left (keep_max score_of) cols (column, Fin z)).2 = Fin z'.
Proof.
  intros Hscore. revert column z. induction cols as [|col cols IH]; intros column z;
    simpl; [by eexists|].
  destruct (Hscore col) as [z' ->]. simpl. destruct (z <? z')%Z; apply IH.
Qed.

(** The column that seeds the loop is replaced by the first child, whose
    score is a number. *)
Lemma keep_max_first score_of col cols seed z :
  score_of col = Fin z →
  fold_left (keep_max score_of) (col :: cols) (seed, NegInf)
  = fold_left (keep_max score_of) cols (Some col, Fin z).
Proof. intros H. simpl. by rewrite H. Qed.

(** All columns of a minimizing node lead to one and the same board, so the
    first column is kept with that board's score. *)
Lemma keep_min_constant v col cols seed :
  v ≠ PosInf →
  fold_left (keep_min (λ _, v)) (col :: cols) (seed, PosInf) = (Some col, v).
Proof.
  intros Hv. simpl. rewrite (score_lt_PosInf _ Hv).
  induction cols as [|c cols IH]; simpl; [done|].
  by rewrite score_lt_irrefl.
Qed.

Section AlphaBeta.

Variable g : Connect4Game.

Lemma full_minimax_unexpanded depth (b : board) side :
  depth = 0 ∨ is_game_over g b = true →
  full_minimax g depth b side = (terminal_or_leaf g b depth (is_game_over g b)).1.
Proof.
  intros Hcase. destruct depth as [|depth']; simpl; [done|].
  destruct Hcase as [|Hover]; [done|]. by rewrite Hover.
Qed.

Lemma full_minimax_expand depth (b : board) side :
  is_game_over g b = false →
  full_minimax g (S depth) b side
  = if side then
      fold_left
        (keep_max (λ col, (full_minimax g depth (child g b col PLAYER_AI) false).2))
        (find_playable_columns g b) (None, NegInf)
    else
      fold_left
        (keep_min (λ col, (full_minimax g depth (child g b col PLAYER_HUMAN) true).2))
        (find_playable_columns g b) (None, PosInf).
Proof. intros Hover. simpl. by rewrite Hover. Qed.

Lemma full_minimax_min_node depth (b : board) :
  is_game_over g b = false →
  (full_minimax g depth b true).2 ≠ PosInf →
  ∃ col cols, find_playable_columns g b = col :: cols
    ∧ full_minimax g (S depth) b false = (Some col, (full_minimax g depth b true).2).
Proof.
  intros Hover Hv. rewrite full_minimax_expand by done.
  pose proof (find_playable_columns_nonempty _ _ Hover) as Hne.
  destruct (find_playable_columns g b) as [|col cols]; [done|].
  exists col, cols. split; [done|].
  rewrite (fold_left_pointwise _ (keep_min (λ _, (full_minimax g depth b true).2))).
  - by apply keep_min_constant.
  - intros [column value] c. unfold keep_min. by rewrite child_PLAYER_HUMAN.
Qed.

(** Every score of the unpruned search is a number, never an infinity. *)
Lemma full_minimax_finite depth (b : board) side :
  ∃ z, (full_minimax g depth b side).2 = Fin z.
Proof.
  revert b side. induction depth as [|depth IH]; intros b side.
  - rewrite full_minimax_unexpanded by (by left). apply terminal_or_leaf_finite.
  - destruct (is_game_over g b) eqn:Hover.
    + rewrite full_minimax_unexpanded by (by right). apply terminal_or_leaf_finite.
    + destruct side.
      * rewrite full_minimax_expand by done.
        pose proof (find_playable_columns_nonempty _ _ Hover) as Hne.
        destruct (find_playable_columns g b) as [|col cols]; [done|].
        destruct (IH (child g b col PLAYER_AI) false) as [z Hz].
        rewrite (keep_max_first _ _ _ _ z) by done.
        apply keep_max_finite. intros c. apply IH.
      * destruct (IH b true) as [z Hz].
        destruct (full_minimax_min_node depth b Hover) as (col & cols & _ & ->);
          [by rewrite Hz|].
        by exists z.
Qed.

Lemma full_minimax_not_PosInf depth (b : board) side :
  (full_minimax g depth b side).2 ≠ PosInf.
Proof. destruct (full_minimax_finite depth b side) as [z ->]. done. Qed.

Variable random_choice : table → board → nat → bool → list nat → nat.

(** A settled node returns the unpruned result under any window and leaves
    the table as it is. *)
Lemma minimax_settled depth (b : board) alpha beta side T :
  table_exact g T → settled g T b depth side →
  minimax random_choice g depth b alpha beta side T = (full_minimax g depth b side, b, T).
Proof.
  intros Hexact Hsettled.
  destruct (T !! (b, depth, side)) as [r|] eqn:HT.
  - rewrite (minimax_cached _ _ _ _ _ _ _ _ _ HT). by rewrite (Hexact _ _ _ _ HT).
  - destruct Hsettled as [[r Hr]|Hcase]; [congruence|].
    by rewrite minimax_unexpanded, full_minimax_unexpanded.
Qed.

Section Loops.

Variable depth : nat.

(** The induction hypothesis: one level down, a search with [beta = inf]
    is exact, keeps the table exact and leaves its node settled. *)
Hypothesis below : ∀ (b : board) alpha side T,
  table_exact g T → alpha ≠ PosInf →
  ∃ T', minimax random_choice g depth b alpha PosInf side T
        = (full_minimax g depth b side, b, T')
        ∧ table_exact g T'
        ∧ settled g T' b depth side.

(** With [beta = inf] the maximizing loop never breaks. *)
Lemma maximizing_loop_exact (b : board) cols column value alpha T :
  table_exact g T → alpha ≠ PosInf → value ≠ PosInf →
  ∃ T', maximizing_loop g (minimax random_choice g depth) b cols
          column value alpha PosInf T
        = (fold_left
             (keep_max (λ col, (full_minimax g depth (child g b col PLAYER_AI) false).2))
             cols (column, value), T')
        ∧ table_exact g T'.
Proof.
  revert column value alpha T.
  induction cols as [|col cols IH]; intros column value alpha T HT Halpha Hvalue.
  - exists T. by simpl.
  - simpl.
    destruct (below (child g b col PLAYER_AI) alpha false T HT Halpha)
      as (T1 & -> & HT1 & _). simpl.
    pose proof (full_minimax_not_PosInf depth (child g b col PLAYER_AI) false) as Hnew.
    destruct (score_lt value _) eqn:Hlt.
    + rewrite score_ge_PosInf by (by apply score_max_not_PosInf).
      by apply IH; [|apply score_max_not_PosInf|].
    + rewrite score_ge_PosInf by (by apply score_max_not_PosInf).
      by apply IH; [|apply score_max_not_PosInf|].
Qed.

(** Once the board is settled one level down, the rest of the minimizing
    loop changes nothing, whether it breaks or runs to its end. *)
Lemma minimizing_loop_settled (b : board) cols col alpha T :
  let v := (full_minimax g depth b true).2 in
  table_exact g T → settled g T b depth true →
  minimizing_loop g (minimax random_choice g depth) b cols (Some col) v alpha v T
  = ((Some col, v), T).
Proof.
  intros v HT Hsettled. induction cols as [|c cols IH]; simpl; [done|].
  rewrite child_PLAYER_HUMAN, minimax_settled by done. simpl. fold v.
  rewrite score_lt_irrefl.
  replace (score_min v v) with v by (unfold score_min; by rewrite score_lt_irrefl).
  by destruct (score_ge alpha v).
Qed.

Lemma minimizing_loop_exact (b : board) col cols seed alpha T :
  table_exact g T → alpha ≠ PosInf →
  ∃ T', minimizing_loop g (minimax random_choice g depth) b (col :: cols)
          seed PosInf alpha PosInf T
        = ((Some col, (full_minimax g depth b true).2), T')
        ∧ table_exact g T'.
Proof.
  intros HT Halpha. simpl. rewrite child_PLAYER_HUMAN.
  destruct (below b alpha true T HT Halpha) as (T1 & -> & HT1 & Hsettled). simpl.
  pose proof (full_minimax_not_PosInf depth b true) as Hv.
  rewrite (score_lt_PosInf _ Hv).
  replace (score_min PosInf (full_minimax g depth b true).2)
    with (full_minimax g depth b true).2
    by (unfold score_min; by rewrite (score_lt_PosInf _ Hv)).
  exists T1. split; [|done].
  destruct (score_ge alpha _); [done|].
  by apply minimizing_loop_settled.
Qed.

End Loops.

Lemma table_exact_insert T (b : board) depth side :
  table_exact g T →
  table_exact g (<[(b, depth, side) := full_minimax g depth b side]> T).
Proof.
  intros HT b' depth' side' r. rewrite lookup_insert. case_decide as E.
  - injection E as <- <- <-. by intros [= <-].
  - apply HT.
Qed.

Lemma minimax_exact depth : ∀ (b : board) alpha side T,
  table_exact g T → alpha ≠ PosInf →
  ∃ T', minimax random_choice g depth b alpha PosInf side T
        = (full_minimax g depth b side, b, T')
        ∧ table_exact g T'
        ∧ settled g T' b depth side.
Proof.
  induction depth as [|depth IH]; intros b alpha side T HT Halpha.
  - exists T. rewrite minimax_settled by (done || right; by left).
    split; [done|]. split; [done|]. right; by left.
  - destruct (T !! (b, S depth, side)) as [r|] eqn:Hlookup.
    { exists T. rewrite minimax_settled by (done || left; by eexists).
      split; [done|]. split; [done|]. left; by eexists. }
    destruct (is_game_over g b) eqn:Hover.
    { exists T. rewrite minimax_settled by (done || right; by right).
      split; [done|]. split; [done|]. right; by right. }
    rewrite minimax_expand by done. cbv zeta.
    destruct side.
    + destruct (maximizing_loop_exact depth IH b (find_playable_columns g b)
                  (Some (random_choice T b (S depth) true (find_playable_columns g b)))
                  NegInf alpha T)
        as (T1 & -> & HT1); try done.
      pose proof (full_minimax_expand depth b true Hover) as Hfull.
      pose proof (find_playable_columns_nonempty _ _ Hover) as Hne.
      destruct (find_playable_columns g b) as [|col cols]; [done|].
      destruct (full_minimax_finite depth (child g b col PLAYER_AI) false) as [z Hz].
      rewrite (keep_max_first _ _ _ None z) in Hfull by done.
      rewrite (keep_max_first _ _ _ (Some _) z) by done.
      rewrite <- Hfull.
      eexists. split; [done|]. split; [by apply table_exact_insert|].
      left. rewrite lookup_insert_eq. by eexists.
    + destruct (full_minimax_min_node depth b Hover (full_minimax_not_PosInf depth b true))
        as (col & cols & Hcols & Hfull).
      rewrite Hcols.
      destruct (minimizing_loop_exact depth IH b col cols
                  (Some (random_choice T b (S depth) false (col :: cols))) alpha T)
        as (T1 & -> & HT1); try done.
      rewrite <- Hfull.
      eexists. split; [done|]. split; [by apply table_exact_insert|].
      left. rewrite lookup_insert_eq. by eexists.
Qed.

End AlphaBeta.

Lemma table_exact_empty g : table_exact g ∅.
Proof. intros b depth side r H. by rewrite lookup_empty in H. Qed.

(** C2.  Started with [beta = inf] and any [alpha] other than [inf] (the
    engine starts with [-inf]), on the empty table or on a table left by
    such searches, and whatever [random.choice] draws, the pruned search
    returns the column and score of the unpruned search of the same tree,
    and leaves a table of the same kind. *)
Theorem alpha_beta_equals_full_minimax random_choice g depth (b : board)
    alpha side T :
  table_exact g T → alpha ≠ PosInf →
  (minimax random_choice g depth b alpha PosInf side T).1.1
  = full_minimax g depth b side
  ∧ table_exact g
      (minimax random_choice g depth b alpha PosInf side T).2.
Proof.
  intros HT Halpha.
  destruct (minimax_exact g random_choice depth b alpha side T HT Halpha)
    as (T' & -> & HT' & _).
  by split.
Qed.

Lemma alpha_beta_equals_full_minimax_witness :
  (minimax first_choice g44 3 board_three_in_row NegInf PosInf true ∅).1.1
  = full_minimax g44 3 board_three_in_row true
  ∧ table_exact g44
      (minimax first_choice g44 3 board_three_in_row NegInf PosInf true ∅).2.
Proof.
  apply (alpha_beta_equals_full_minimax first_choice g44 3 board_three_in_row
           NegInf true ∅).
  - exact (table_exact_empty g44).
  - discriminate.
Defined.

(** ** The table hypothesis of C10 is an invariant of the search *)

Section TableColumns.

Variable random_choice : table → board → nat → bool → list nat → nat.
Variable g : Connect4Game.
Hypothesis random_choice_elem :
  ∀ T b depth side l, l ≠ [] → random_choice T b depth side l ∈ l.

Section Loops.

Variable rec : board → score → score → bool → table → search_result * board * table.
Hypothesis rec_keeps : ∀ b alpha beta side T,
  table_columns_playable g T → table_columns_playable g (rec b alpha beta side T).2.

Lemma maximizing_loop_keeps (b : board) cols column value alpha beta T :
  table_columns_playable g T →
  table_columns_playable g
    (maximizing_loop g rec b cols column value alpha beta T).2.
Proof.
  revert column value alpha T. induction cols as [|col cols IH];
    intros column value alpha T HT; simpl; [done|].
  pose proof (rec_keeps (child g b col PLAYER_AI) alpha beta false T HT) as H1.
  destruct (rec _ alpha beta false T) as [[r0 b0] T0]. simpl in H1.
  destruct (score_lt value r0.2); destruct (score_ge _ beta); simpl; auto.
Qed.

Lemma minimizing_loop_keeps (b : board) cols column value alpha beta T :
  table_columns_playable g T →
  table_columns_playable g
    (minimizing_loop g rec b cols column value alpha beta T).2.
Proof.
  revert column value beta T. induction cols as [|col cols IH];
    intros column value beta T HT; simpl; [done|].
  pose proof (rec_keeps (child g b col PLAYER_HUMAN) alpha beta true T HT) as H1.
  destruct (rec _ alpha beta true T) as [[r0 b0] T0]. simpl in H1.
  destruct (score_lt r0.2 value); destruct (score_ge alpha _); simpl; auto.
Qed.

End Loops.

Lemma table_columns_playable_insert T (b : board) depth side r col :
  table_columns_playable g T → r.1 = Some col → col ∈ find_playable_columns g b →
  table_columns_playable g (<[(b, depth, side) := r]> T).
Proof.
  intros HT Hr Hcol b' depth' side' r'. rewrite lookup_insert. case_decide as E.
  - injection E as <- <- <-. intros [= <-]. eauto.
  - apply HT.
Qed.

Lemma minimax_keeps_table_columns_playable depth :
  ∀ (b : board) alpha beta side T,
    table_columns_playable g T →
    table_columns_playable g (minimax random_choice g depth b alpha beta side T).2.
Proof.
  induction depth as [|depth IH]; intros b alpha beta side T HT.
  - destruct (T !! (b, 0, side)) as [r|] eqn:Hlookup.
    + by rewrite (minimax_cached _ _ _ _ _ _ _ _ _ Hlookup).
    + by rewrite minimax_unexpanded by (done || by left).
  - destruct (T !! (b, S depth, side)) as [r|] eqn:Hlookup.
    { by rewrite (minimax_cached _ _ _ _ _ _ _ _ _ Hlookup). }
    destruct (is_game_over g b) eqn:Hover.
    { by rewrite minimax_unexpanded by (done || by right). }
    rewrite minimax_expand by done. cbv zeta.
    pose proof (random_choice_elem T b (S depth) side _
                  (find_playable_columns_nonempty _ _ Hover)) as Hseed.
    destruct side.
    + pose proof (maximizing_loop_keeps (minimax random_choice g depth) IH b
        (find_playable_columns g b) (Some (random_choice T b (S depth) true (find_playable_columns g b)))
        NegInf alpha beta T HT) as Hkeeps.
      pose proof (maximizing_loop_column g (minimax random_choice g depth) b
        (find_playable_columns g b) (Some (random_choice T b (S depth) true (find_playable_columns g b)))
        NegInf alpha beta T) as Hcol.
      destruct (maximizing_loop _ _ _ _ _ _ _ _ _) as [r T']. simpl in *.
      destruct Hcol as [Hcol|(c & Hc & Hcol)];
        by eapply table_columns_playable_insert.
    + pose proof (minimizing_loop_keeps (minimax random_choice g depth) IH b
        (find_playable_columns g b) (Some (random_choice T b (S depth) false (find_playable_columns g b)))
        PosInf alpha beta T HT) as Hkeeps.
      pose proof (minimizing_loop_column g (minimax random_choice g depth) b
        (find_playable_columns g b) (Some (random_choice T b (S depth) false (find_playable_columns g b)))
        PosInf alpha beta T) as Hcol.
      destruct (minimizing_loop _ _ _ _ _ _ _ _ _) as [r T']. simpl in *.
      destruct Hcol as [Hcol|(c & Hc & Hcol)];
        by eapply table_columns_playable_insert.
Qed.

End TableColumns.

(** * Further properties of the code *)

(** ** The board primitives of [Connect4Game] *)

Lemma cell_create_board g r c : cell (create_board g) r c = PIECE_EMPTY.
Proof.
  unfold cell, create_board.
  destruct (nth_lookup_or_length (replicate (row_count g)
              (replicate (column_count g) PIECE_EMPTY)) r []) as [E|E].
  - apply lookup_replicate in E as [-> _].
    destruct (nth_lookup_or_length (replicate (column_count g) PIECE_EMPTY) c PIECE_EMPTY)
      as [E|E].
    + by apply lookup_replicate in E as [-> _].
    + by rewrite nth_overflow.
  - rewrite (nth_overflow _ []) by done. by destruct c.
Qed.

Lemma create_board_wf g : wf_board g (create_board g).
Proof.
  unfold wf_board, create_board. rewrite length_replicate. split; [done|].
  apply Forall_replicate. by rewrite length_replicate.
Qed.

Lemma cell_place_disc_same (b : board) r c piece :
  r < length b → c < length (nth r b []) →
  cell (place_disc b r c piece) r c = piece.
Proof.
  intros Hr Hc. unfold cell, place_disc.
  destruct (lookup_lt_is_Some_2 b r Hr) as [line Hline].
  rewrite (nth_lookup_Some _ _ _ _ Hline) in Hc.
  rewrite (nth_lookup_Some _ r [] (<[c:=piece]> line)).
  - apply nth_lookup_Some. by apply list_lookup_insert_eq.
  - by rewrite list_lookup_alter_eq, Hline.
Qed.

Lemma cell_place_disc_other (b : board) r c piece r' c' :
  ¬ (r' = r ∧ c' = c) →
  cell (place_disc b r c piece) r' c' = cell b r' c'.
Proof.
  intros Hne. unfold cell, place_disc. rewrite !(nth_lookup _ r').
  destruct (decide (r' = r)) as [->|Hr].
  - rewrite list_lookup_alter_eq. destruct (b !! r) as [line|]; simpl; [|done].
    rewrite !nth_lookup, list_lookup_insert_ne; [done|]. intros ->. by apply Hne.
  - by rewrite list_lookup_alter_ne.
Qed.

Lemma wf_board_row_length g (b : board) r :
  wf_board g b → r < row_count g → length (nth r b []) = column_count g.
Proof. apply row_array_length. Qed.

(** X1.  [place_disc] on a board of the game's shape writes exactly the cell it
    is given and keeps the shape. *)
Theorem place_disc_cell g (b : board) r c piece r' c' :
  wf_board g b → r < row_count g → c < column_count g →
  wf_board g (place_disc b r c piece)
  ∧ cell (place_disc b r c piece) r' c'
    = if bool_decide (r' = r ∧ c' = c) then piece else cell b r' c'.
Proof.
  intros Hwf Hr Hc. split; [by apply place_disc_wf|].
  case_bool_decide as E.
  - destruct E as [-> ->]. apply cell_place_disc_same.
    + destruct Hwf as [-> _]. done.
    + by rewrite (wf_board_row_length g).
  - by apply cell_place_disc_other.
Qed.

Lemma place_disc_cell_witness :
  wf_board g44 (place_disc board_three_in_row 0 3 PIECE_AI)
  ∧ cell (place_disc board_three_in_row 0 3 PIECE_AI) 0 3 = PIECE_AI.
Proof.
  apply (place_disc_cell g44 board_three_in_row 0 3 PIECE_AI 0 3).
  - apply wf_boardb_spec. reflexivity.
  - simpl. lia.
  - simpl. lia.
Defined.

Lemma find_seq_first (f : nat → bool) (s n r : nat) :
  List.find f (seq s n) = Some r
  ↔ s ≤ r < s + n ∧ f r = true ∧ ∀ r', s ≤ r' < r → f r' = false.
Proof.
  revert s. induction n as [|n IH]; intros s; simpl.
  - split; [done|]. intros [? _]. lia.
  - destruct (f s) eqn:E.
    + split.
      * intros [= <-]. split; [lia|]. split; [done|]. intros r' ?. lia.
      * intros (Hr & Hf & Hlow). f_equal.
        destruct (decide (s = r)) as [|Hne]; [done|].
        rewrite (Hlow s) in E by lia. done.
    + rewrite IH. split.
      * intros (Hr & Hf & Hlow). split; [lia|]. split; [done|].
        intros r' Hr'. destruct (decide (r' = s)) as [->|]; [done|]. apply Hlow. lia.
      * intros (Hr & Hf & Hlow).
        assert (s ≠ r) by (intros ->; congruence).
        split; [lia|]. split; [done|]. intros r' Hr'. apply Hlow. lia.
Qed.

Lemma find_seq_none (f : nat → bool) (s n : nat) :
  List.find f (seq s n) = None ↔ ∀ r, s ≤ r < s + n → f r = false.
Proof.
  split.
  - intros H r Hr. apply (find_none _ _ H). apply in_seq. lia.
  - intros H. destruct (List.find f (seq s n)) as [r|] eqn:E; [|done].
    apply find_seq_first in E as (Hr & Hf & _). rewrite H in Hf by lia. done.
Qed.

Lemma find_open_row_Some_iff g (b : board) col row :
  find_open_row g b col = Some row
  ↔ row < row_count g ∧ cell b row col = PIECE_EMPTY
    ∧ ∀ r, r < row → cell b r col ≠ PIECE_EMPTY.
Proof.
  unfold find_open_row. rewrite find_seq_first. simpl. rewrite Z.eqb_eq. split.
  - intros (Hr & Hc & Hlow). split; [lia|]. split; [done|].
    intros r Hlt. apply Z.eqb_neq, Hlow. lia.
  - intros (Hr & Hc & Hlow). split; [lia|]. split; [done|].
    intros r Hlt. apply Z.eqb_neq, Hlow. lia.
Qed.

Lemma find_open_row_None_iff g (b : board) col :
  find_open_row g b col = None
  ↔ ∀ r, r < row_count g → cell b r col ≠ PIECE_EMPTY.
Proof.
  unfold find_open_row. rewrite find_seq_none. simpl. split.
  - intros H r Hr. apply Z.eqb_neq, H. lia.
  - intros H r Hr. apply Z.eqb_neq, H. lia.
Qed.

(** In a column of the board every read of the scan is of a stored entry. *)
Lemma cell_stored g (b : board) r col :
  wf_board g b → r < row_count g → col < column_count g →
  ∃ line, b !! r = Some line ∧ line !! col = Some (cell b r col).
Proof.
  intros [Hlen Hrows] Hr Hcol.
  destruct (lookup_lt_is_Some_2 b r) as [line Hline]; [lia|].
  exists line. split; [done|].
  rewrite Forall_lookup in Hrows. pose proof (Hrows _ _ Hline) as Hl. simpl in Hl.
  destruct (lookup_lt_is_Some_2 line col) as [x Hx]; [lia|].
  rewrite (cell_lookup _ _ _ _ Hline). by rewrite (nth_lookup_Some _ _ _ _ Hx).
Qed.

(** X2.  On a board of the game's shape and for one of its columns, every
    cell [find_open_row] reads is stored in the board (no index is out of
    range), it returns the lowest empty row of the column, and [None]
    exactly when the column has no empty cell. *)
Theorem find_open_row_lowest g (b : board) col :
  wf_board g b → col < column_count g →
  (∀ r, r < row_count g →
        ∃ line, b !! r = Some line ∧ line !! col = Some (cell b r col))
  ∧ (∀ row, find_open_row g b col = Some row
            ↔ row < row_count g ∧ cell b row col = PIECE_EMPTY
              ∧ ∀ r, r < row → cell b r col ≠ PIECE_EMPTY)
  ∧ (find_open_row g b col = None
     ↔ ∀ r, r < row_count g → cell b r col ≠ PIECE_EMPTY).
Proof.
  intros Hwf Hcol. split; [|split].
  - intros r Hr. by apply (cell_stored g).
  - intros row. apply find_open_row_Some_iff.
  - apply find_open_row_None_iff.
Qed.

Lemma find_open_row_lowest_witness :
  find_open_row g44 board_three_rows 0 = Some 3
  ∧ (find_open_row g44 board_full 0 = None
     ↔ ∀ r, r < row_count g44 → cell board_full r 0 ≠ PIECE_EMPTY).
Proof.
  split.
  - apply (proj1 (proj2 (find_open_row_lowest g44 board_three_rows 0
                           ltac:(by apply wf_boardb_spec) ltac:(vm_compute; lia)))).
    split; [vm_compute; lia|]. split; [reflexivity|].
    intros r Hr. destruct r as [|[|[|r]]]; [done|done|done|lia].
  - apply (proj2 (proj2 (find_open_row_lowest g44 board_full 0
                           ltac:(by apply wf_boardb_spec) ltac:(vm_compute; lia)))).
Defined.

Lemma gravity_column_top g (b : board) col row :
  gravity g b → col < column_count g → row < row_count g →
  cell b row col = PIECE_EMPTY → cell b (row_count g - 1) col = PIECE_EMPTY.
Proof.
  intros Hg Hc Hr Hcell.
  assert (∀ k, row + k < row_count g → cell b (row + k) col = PIECE_EMPTY) as H.
  { induction k as [|k IH]; intros Hk.
    - by rewrite Nat.add_0_r.
    - replace (row + S k) with (row + k + 1) by lia.
      apply Hg; [lia|done|]. apply IH. lia. }
  replace (row_count g - 1) with (row + (row_count g - 1 - row)) by lia.
  apply H. lia.
Qed.

(** X3.  The two column tests agree.  On a board of the game's shape, an open
    column ([is_column_open]) always has an open row ([find_open_row]); on a
    board where discs rest on discs the converse holds too, so a column with
    an open row is never reported full. *)
Theorem is_column_open_find_open_row g (b : board) col :
  wf_board g b → 1 ≤ row_count g → col < column_count g →
  (is_column_open g b (Z.of_nat col) = Some true →
     ∃ row, find_open_row g b col = Some row)
  ∧ (gravity g b → ∀ row, find_open_row g b col = Some row →
     is_column_open g b (Z.of_nat col) = Some true).
Proof.
  intros Hwf Hr Hc. rewrite is_column_open_range by done. split.
  - intros [= Hopen]. apply Z.eqb_eq in Hopen.
    destruct (find_open_row g b col) as [row|] eqn:E; [by eexists|].
    rewrite find_open_row_None_iff in E. destruct (E (row_count g - 1)); [lia|done].
  - intros Hg row Hrow. apply find_open_row_Some in Hrow as [Hlt Hcell].
    f_equal. apply Z.eqb_eq. by eapply gravity_column_top.
Qed.

Lemma gravity_create_board g : gravity g (create_board g).
Proof. intros r c _ _ _. apply cell_create_board. Qed.

Lemma is_column_open_find_open_row_witness :
  (∃ row, find_open_row g44 (create_board g44) 3 = Some row)
  ∧ is_column_open g44 (create_board g44) (Z.of_nat 3) = Some true.
Proof.
  destruct (is_column_open_find_open_row g44 (create_board g44) 3) as [H1 H2].
  - exact (create_board_wf g44).
  - simpl. lia.
  - simpl. lia.
  - split.
    + apply H1. reflexivity.
    + apply (H2 (gravity_create_board g44) 0). reflexivity.
Defined.

(** ** Dropping discs keeps the board's shape and the discs stacked *)

Lemma drop_keeps_gravity g (b : board) col row piece :
  gravity g b → find_open_row g b col = Some row →
  gravity g (place_disc b row col piece).
Proof.
  intros Hg Hrow. apply find_open_row_Some_iff in Hrow as (Hlt & Hcell & Hlow).
  intros r c Hr Hc Hempty.
  destruct (decide (c = col)) as [->|Hne].
  - destruct (decide (r = row)) as [->|Hr'].
    + (* the new disc's cell is empty only if the disc is [PIECE_EMPTY] *)
      rewrite cell_place_disc_other by lia. apply Hg; done.
    + rewrite cell_place_disc_other in Hempty by tauto.
      destruct (decide (r + 1 = row)) as [E|E].
      * destruct (Hlow r); [lia|done].
      * rewrite cell_place_disc_other by tauto. by apply Hg.
  - rewrite cell_place_disc_other in Hempty by tauto.
    rewrite cell_place_disc_other by tauto. by apply Hg.
Qed.

Lemma is_column_open_Some_lt g (b : board) (col : nat) v :
  wf_board g b → is_column_open g b (Z.of_nat col) = Some v → col < column_count g.
Proof.
  intros Hwf. destruct (decide (1 ≤ row_count g)) as [Hr|Hr].
  - rewrite is_column_open_wf by done.
    destruct (np_index (column_count g) (Z.of_nat col)) as [c|] eqn:E; simpl; [|done].
    intros _. unfold np_index in E. repeat case_match; try done; lia.
  - destruct Hwf as [Hlen _]. unfold is_column_open. rewrite Hlen.
    replace (row_count g) with 0 by lia. done.
Qed.

Lemma play_moves_keeps g moves : ∀ (b b' : board) piece,
  wf_board g b → gravity g b →
  play_moves g b piece moves = Some b' → wf_board g b' ∧ gravity g b'.
Proof.
  induction moves as [|col moves IH]; intros b b' piece Hwf Hg; simpl.
  - by intros [= <-].
  - destruct (_ || _); [done|].
    destruct (is_column_open g b (Z.of_nat col)) as [[]|] eqn:Hopen; try done.
    destruct (find_open_row g b col) as [row|] eqn:Hrow; [|done].
    apply IH.
    + by apply place_disc_wf.
    + by eapply drop_keeps_gravity.
Qed.

(** X4.  Every board reached by alternate legal play from the empty board has
    the game's shape, and in each of its columns the discs are stacked from
    row 0 without gaps. *)
Theorem reachable_shape_and_gravity g (b : board) :
  reachable g b → wf_board g b ∧ gravity g b.
Proof.
  intros (first & moves & _ & Hplay).
  eapply play_moves_keeps; [apply create_board_wf|apply gravity_create_board|done].
Qed.

Lemma many_threats_reachable : reachable g715 many_threats_board.
Proof.
  exists PIECE_HUMAN, many_threats_moves. split; [by left|]. vm_compute. reflexivity.
Qed.

Lemma reachable_shape_and_gravity_witness :
  wf_board g715 many_threats_board ∧ gravity g715 many_threats_board.
Proof.
  apply (reachable_shape_and_gravity g715 many_threats_board).
  exact many_threats_reachable.
Defined.

(** X5.  One drop, as the game loop and the search make it (lowest empty row
    of the column, then [place_disc]), keeps the shape and the stacking and
    writes exactly that cell. *)
Theorem drop_disc g (b : board) col row piece :
  wf_board g b → gravity g b → col < column_count g →
  find_open_row g b col = Some row →
  child g b col piece = place_disc b row col piece
  ∧ wf_board g (child g b col piece)
  ∧ gravity g (child g b col piece)
  ∧ cell (child g b col piece) row col = piece
  ∧ (∀ r c, ¬ (r = row ∧ c = col) → cell (child g b col piece) r c = cell b r c).
Proof.
  intros Hwf Hg Hc Hrow. unfold child. rewrite Hrow.
  pose proof (find_open_row_Some _ _ _ _ Hrow) as [Hlt _].
  split; [done|]. split; [by apply place_disc_wf|].
  split; [by eapply drop_keeps_gravity|]. split.
  - apply cell_place_disc_same.
    + by destruct Hwf as [-> _].
    + by rewrite (wf_board_row_length g).
  - intros r c Hne. by apply cell_place_disc_other.
Qed.

Lemma drop_disc_witness :
  child g44 (create_board g44) 2 PIECE_AI = place_disc (create_board g44) 0 2 PIECE_AI
  ∧ wf_board g44 (child g44 (create_board g44) 2 PIECE_AI)
  ∧ gravity g44 (child g44 (create_board g44) 2 PIECE_AI)
  ∧ cell (child g44 (create_board g44) 2 PIECE_AI) 0 2 = PIECE_AI
  ∧ (∀ r c, ¬ (r = 0 ∧ c = 2) →
       cell (child g44 (create_board g44) 2 PIECE_AI) r c = cell (create_board g44) r c).
Proof.
  apply (drop_disc g44 (create_board g44) 2 0 PIECE_AI).
  - exact (create_board_wf g44).
  - exact (gravity_create_board g44).
  - simpl. lia.
  - reflexivity.
Defined.

(** ** Win detection and the windows of the evaluator *)

Lemma four_equal_iff piece x0 x1 x2 x3 :
  four_equal piece x0 x1 x2 x3 = true ↔ [x0; x1; x2; x3] = [piece; piece; piece; piece].
Proof.
  unfold four_equal. rewrite !andb_true_iff, !Z.eqb_eq. split.
  - by intros [[[-> ->] ->] ->].
  - by intros [= -> -> -> ->].
Qed.

Lemma existsb_grid (f : nat → nat → bool) (rs cs : list nat) :
  existsb (λ c, existsb (λ r, f r c) rs) cs = true
  ↔ ∃ r c, r ∈ rs ∧ c ∈ cs ∧ f r c = true.
Proof.
  rewrite existsb_exists. split.
  - intros (c & Hc & H). apply existsb_exists in H as (r & Hr & H).
    exists r, c. by rewrite !list_elem_of_In.
  - intros (r & c & Hr & Hc & H). exists c. rewrite <- list_elem_of_In. split; [done|].
    apply existsb_exists. exists r. by rewrite <- list_elem_of_In.
Qed.

Lemma is_winning_pattern_window g (b : board) piece :
  is_winning_pattern g b piece = true
  ↔ piece ≠ PIECE_EMPTY ∧ [piece; piece; piece; piece] ∈ all_windows g b.
Proof.
  unfold is_winning_pattern.
  destruct (Z.eqb_spec piece PIECE_EMPTY) as [->|Hp]; [split; [done|by intros [? _]]|].
  unfold win_horizontal, win_vertical, win_positive_diagonal, win_negative_diagonal,
    all_windows.
  rewrite !orb_true_iff, !elem_of_app.
  rewrite !existsb_grid.
  unfold horizontal_windows, vertical_windows, positive_diagonal_windows,
    negative_diagonal_windows.
  rewrite !elem_of_windows.
  unfold window, WINNING_LENGTH. simpl.
  split.
  - intros [[[H|H]|H]|H]; destruct H as (r & c & Hr & Hc & H%four_equal_iff);
      (split; [done|]).
    + left. exists r, c. by rewrite !Nat.add_0_r.
    + right; left. exists c, r. by rewrite !Nat.add_0_r.
    + right; right; left. exists r, c. by rewrite !Nat.add_0_r.
    + right; right; right. apply elem_of_seq in Hr. exists (r - 3), c.
      split; [apply elem_of_seq; lia|]. split; [done|].
      replace (r - 3 + 3) with r by lia. by rewrite !Nat.add_0_r, Nat.sub_0_r.
  - intros [_ [H|[H|[H|H]]]]; destruct H as (x & y & Hx & Hy & H).
    + left; left; left. exists x, y. split; [done|]. split; [done|].
      apply four_equal_iff. by rewrite !Nat.add_0_r in H.
    + left; left; right. exists y, x. split; [done|]. split; [done|].
      apply four_equal_iff. by rewrite !Nat.add_0_r in H.
    + left; right. exists x, y. split; [done|]. split; [done|].
      apply four_equal_iff. by rewrite !Nat.add_0_r in H.
    + right. apply elem_of_seq in Hx. exists (x + 3), y.
      split; [apply elem_of_seq; lia|]. split; [done|].
      apply four_equal_iff. by rewrite !Nat.add_0_r, Nat.sub_0_r in H.
Qed.

Lemma count_four (w : list Z) piece :
  length w = 4 → (count w piece = 4 ↔ w = [piece; piece; piece; piece]).
Proof.
  intros Hlen. destruct w as [|x0 [|x1 [|x2 [|x3 [|]]]]]; try done.
  unfold count. split.
  - intros H. rewrite !filter_cons in H.
    repeat case_decide; simpl in H; try lia. by subst.
  - intros [= -> -> -> ->]. rewrite !filter_cons.
    repeat case_decide; done.
Qed.

Lemma length_all_windows_elem g (b : board) w : w ∈ all_windows g b → length w = 4.
Proof.
  unfold all_windows, horizontal_windows, vertical_windows,
    positive_diagonal_windows, negative_diagonal_windows.
  rewrite !elem_of_app, !elem_of_windows.
  intros [H|[H|[H|H]]]; destruct H as (x & y & _ & _ & <-); reflexivity.
Qed.

Lemma count_sum_le (w : list Z) x y : x ≠ y → count w x + count w y ≤ length w.
Proof.
  intros Hne. unfold count. induction w as [|z w IH]; simpl; [done|].
  rewrite !filter_cons. repeat case_decide; simpl; subst; try done; lia.
Qed.

Lemma assess_line_1000 (w : list Z) piece :
  length w = 4 → (assess_line w piece = 1000%Z ↔ count w piece = 4).
Proof.
  intros Hlen. unfold assess_line.
  set (opp := if (piece =? PIECE_HUMAN)%Z then PIECE_AI else PIECE_HUMAN).
  assert (piece ≠ opp) as Hne.
  { unfold opp. destruct (Z.eqb_spec piece PIECE_HUMAN) as [->|]; [done|]. done. }
  pose proof (count_sum_le w piece opp Hne).
  destruct (Nat.eqb_spec (count w piece) 4) as [E|E].
  - destruct (Nat.eqb_spec (count w opp) 3); simpl; [lia|done].
  - split; [|done]. repeat case_match; lia.
Qed.

(** X6.  Win detection and the evaluator see the same lines.
    [is_winning_pattern] is true exactly when the piece is not
    [PIECE_EMPTY] and one of the four-cell windows the evaluator scores is
    four cells of that piece, which is exactly when some window is assessed
    at 1000. *)
Theorem is_winning_pattern_windows g (b : board) piece :
  (is_winning_pattern g b piece = true
   ↔ piece ≠ PIECE_EMPTY ∧ [piece; piece; piece; piece] ∈ all_windows g b)
  ∧ (piece ≠ PIECE_EMPTY →
     (is_winning_pattern g b piece = true
      ↔ ∃ w, w ∈ all_windows g b ∧ assess_line w piece = 1000%Z)).
Proof.
  split; [apply is_winning_pattern_window|].
  intros Hp. rewrite is_winning_pattern_window. split.
  - intros [_ Hw]. exists [piece; piece; piece; piece]. split; [done|].
    apply assess_line_1000; [done|]. by apply count_four.
  - intros (w & Hw & Hscore). split; [done|].
    pose proof (length_all_windows_elem _ _ _ Hw) as Hlen.
    apply assess_line_1000 in Hscore; [|done].
    apply count_four in Hscore; [|done]. by subst.
Qed.

Lemma all_windows_create_board g w :
  w ∈ all_windows g (create_board g)
  → w = [PIECE_EMPTY; PIECE_EMPTY; PIECE_EMPTY; PIECE_EMPTY].
Proof.
  unfold all_windows, horizontal_windows, vertical_windows,
    positive_diagonal_windows, negative_diagonal_windows.
  rewrite !elem_of_app, !elem_of_windows.
  intros [H|[H|[H|H]]]; destruct H as (x & y & _ & _ & <-);
    unfold window; simpl; by rewrite !cell_create_board.
Qed.

Lemma is_winning_pattern_create_board g piece :
  is_winning_pattern g (create_board g) piece = false.
Proof.
  destruct (is_winning_pattern g (create_board g) piece) eqn:E; [|done].
  apply is_winning_pattern_window in E as [Hp Hw].
  apply all_windows_create_board in Hw. congruence.
Qed.

Lemma near_win_piece_create_board g piece :
  piece ≠ PIECE_EMPTY → near_win_piece g (create_board g) piece = false.
Proof.
  intros Hp. destruct (near_win_piece g (create_board g) piece) eqn:E; [|done].
  apply near_win_piece_iff in E; [|done].
  apply all_windows_create_board in E. congruence.
Qed.

Lemma empty_cells_create_board g :
  empty_cells (create_board g) = row_count g * column_count g.
Proof.
  unfold empty_cells, create_board.
  generalize (row_count g) as n. intros n. induction n as [|n IH]; simpl; [done|].
  rewrite filter_app, length_app, IH. f_equal.
  generalize (column_count g) as m. intros m. induction m as [|m IHm]; [done|].
  change (replicate (S m) PIECE_EMPTY) with (PIECE_EMPTY :: replicate m PIECE_EMPTY).
  rewrite filter_cons_True by done. simpl. by rewrite IHm.
Qed.

(** X7.  The board [create_board] (and so [reset_game]) gives has the game's
    shape, every cell empty, no winning pattern for any piece and no near
    win, and [calculate_dynamic_depth] gives the base depth 7 for it. *)
Theorem create_board_fresh g :
  wf_board g (create_board g)
  ∧ (∀ r c, cell (create_board g) r c = PIECE_EMPTY)
  ∧ (∀ piece, is_winning_pattern g (create_board g) piece = false)
  ∧ is_near_win g (create_board g) = false
  ∧ calculate_dynamic_depth g (create_board g) = 7.
Proof.
  split; [apply create_board_wf|]. split; [intros; apply cell_create_board|].
  split; [apply is_winning_pattern_create_board|].
  assert (is_near_win g (create_board g) = false) as Hnear.
  { unfold is_near_win. simpl. by rewrite !near_win_piece_create_board. }
  split; [done|].
  rewrite calculate_dynamic_depth_cases, Hnear, empty_cells_create_board.
  by rewrite (proj2 (Nat.ltb_ge _ _)) by lia.
Qed.

(** ** The window score *)

Lemma opponent_piece_ne piece :
  piece ≠ (if (piece =? PIECE_HUMAN)%Z then PIECE_AI else PIECE_HUMAN).
Proof. destruct (Z.eqb_spec piece PIECE_HUMAN) as [->|]; done. Qed.

(** X8.  On a four-cell window the penalty never combines with a bonus.  The
    score is 1000 for four of the piece, 50 for three with one empty cell, 10
    for two with two empty cells, -25 for three of the opposing piece with
    one empty cell, and 0 otherwise; so a window worth 50 to the human's
    piece is worth -25 to the AI's and the other way round. *)
Theorem assess_line_four_cells (w : list Z) piece :
  length w = 4 →
  let opponent_piece := if (piece =? PIECE_HUMAN)%Z then PIECE_AI else PIECE_HUMAN in
  assess_line w piece
  = (if count w piece =? 4 then 1000%Z
     else if (count w piece =? 3) && (count w PIECE_EMPTY =? 1) then 50%Z
     else if (count w piece =? 2) && (count w PIECE_EMPTY =? 2) then 10%Z
     else if (count w opponent_piece =? 3) && (count w PIECE_EMPTY =? 1) then (-25)%Z
     else 0%Z)
  ∧ (assess_line w PIECE_HUMAN = 50%Z ↔ assess_line w PIECE_AI = (-25)%Z)
  ∧ (assess_line w PIECE_AI = 50%Z ↔ assess_line w PIECE_HUMAN = (-25)%Z).
Proof.
  intros Hlen opponent_piece.
  pose proof (count_sum_le w piece opponent_piece (opponent_piece_ne piece)) as Hsum.
  pose proof (count_sum_le w PIECE_HUMAN PIECE_AI ltac:(done)) as Hsum'.
  split; [|split].
  - unfold assess_line. fold opponent_piece.
    destruct (Nat.eqb_spec (count w piece) 4);
    destruct (Nat.eqb_spec (count w piece) 3);
    destruct (Nat.eqb_spec (count w piece) 2);
    destruct (Nat.eqb_spec (count w opponent_piece) 3);
    destruct (Nat.eqb_spec (count w PIECE_EMPTY) 1);
    destruct (Nat.eqb_spec (count w PIECE_EMPTY) 2); simpl; try done; lia.
  - unfold assess_line. simpl.
    destruct (Nat.eqb_spec (count w PIECE_HUMAN) 4);
    destruct (Nat.eqb_spec (count w PIECE_HUMAN) 3);
    destruct (Nat.eqb_spec (count w PIECE_HUMAN) 2);
    destruct (Nat.eqb_spec (count w PIECE_AI) 4);
    destruct (Nat.eqb_spec (count w PIECE_AI) 3);
    destruct (Nat.eqb_spec (count w PIECE_AI) 2);
    destruct (Nat.eqb_spec (count w PIECE_EMPTY) 1);
    destruct (Nat.eqb_spec (count w PIECE_EMPTY) 2); simpl; split; try done; lia.
  - unfold assess_line. simpl.
    destruct (Nat.eqb_spec (count w PIECE_HUMAN) 4);
    destruct (Nat.eqb_spec (count w PIECE_HUMAN) 3);
    destruct (Nat.eqb_spec (count w PIECE_HUMAN) 2);
    destruct (Nat.eqb_spec (count w PIECE_AI) 4);
    destruct (Nat.eqb_spec (count w PIECE_AI) 3);
    destruct (Nat.eqb_spec (count w PIECE_AI) 2);
    destruct (Nat.eqb_spec (count w PIECE_EMPTY) 1);
    destruct (Nat.eqb_spec (count w PIECE_EMPTY) 2); simpl; split; try done; lia.
Qed.

Lemma assess_line_four_cells_witness :
  assess_line [1; 1; 1; 0]%Z PIECE_HUMAN = 50%Z
  ∧ (assess_line [1; 1; 1; 0]%Z PIECE_HUMAN = 50%Z
     ↔ assess_line [1; 1; 1; 0]%Z PIECE_AI = (-25)%Z).
Proof.
  destruct (assess_line_four_cells [1; 1; 1; 0]%Z PIECE_HUMAN) as (H1 & H2 & _).
  - reflexivity.
  - split; [exact H1|exact H2].
Defined.

(** ** Dynamic depth *)

(** X9.  [calculate_dynamic_depth] returns 7, 8 or 10 and never 9: every board
    more than half filled gets 8, whether or not it is more than 75 percent
    filled or has a near win. *)
Theorem calculate_dynamic_depth_values g (b : board) :
  (calculate_dynamic_depth g b = 7 ∨ calculate_dynamic_depth g b = 8
   ∨ calculate_dynamic_depth g b = 10)
  ∧ (2 * empty_cells b < row_count g * column_count g →
     calculate_dynamic_depth g b = 8)
  ∧ (row_count g * column_count g ≤ 2 * empty_cells b →
     calculate_dynamic_depth g b ≠ 8).
Proof.
  rewrite calculate_dynamic_depth_cases.
  destruct (Nat.ltb_spec (2 * empty_cells b) (row_count g * column_count g)).
  - split; [tauto|]. split; [done|lia].
  - destruct (is_near_win g b); (split; [tauto|]); (split; [lia|done]).
Qed.

(** ** Playable columns and the end of the game *)

Lemma open_columns_nil g (b : board) :
  wf_board g b → 1 ≤ row_count g →
  (open_columns g b = []
   ↔ ∀ col, col < column_count g → cell b (row_count g - 1) col ≠ PIECE_EMPTY).
Proof.
  intros Hwf Hr. split.
  - intros Hnil col Hcol Hcell.
    assert (col ∈ open_columns g b) as Hin.
    { apply elem_of_open_columns. split; [done|].
      rewrite is_column_open_range by done. f_equal. by apply Z.eqb_eq. }
    rewrite Hnil in Hin. by apply elem_of_nil in Hin.
  - intros Hfull. destruct (open_columns g b) as [|c l] eqn:E; [done|].
    assert (c ∈ open_columns g b) as Hin by (rewrite E; left).
    apply elem_of_open_columns in Hin as [Hc Hopen].
    rewrite is_column_open_range in Hopen by done.
    injection Hopen as Hopen. apply Z.eqb_eq in Hopen. by destruct (Hfull c Hc).
Qed.

Lemma find_playable_columns_nil g (b : board) :
  find_playable_columns g b = [] ↔ open_columns g b = [].
Proof.
  unfold find_playable_columns.
  destruct (winning_columns g b) as [|c l] eqn:E; [done|].
  split; [done|]. intros Hopen. unfold winning_columns in E. by rewrite Hopen in E.
Qed.

(** X10.  [find_playable_columns] is empty exactly when no column is open, which
    on a board of the game's shape means that the top row has no empty cell:
    keeping only the winning columns never empties the list. *)
Theorem find_playable_columns_empty g (b : board) :
  wf_board g b → 1 ≤ row_count g →
  (find_playable_columns g b = [] ↔ open_columns g b = [])
  ∧ (find_playable_columns g b = []
     ↔ ∀ col, col < column_count g → cell b (row_count g - 1) col ≠ PIECE_EMPTY).
Proof.
  intros Hwf Hr. split; [apply find_playable_columns_nil|].
  by rewrite find_playable_columns_nil, open_columns_nil.
Qed.

Lemma find_playable_columns_empty_witness :
  (find_playable_columns g44 board_three_in_row = []
   ↔ open_columns g44 board_three_in_row = [])
  ∧ (find_playable_columns g44 board_three_in_row = []
     ↔ ∀ col, col < column_count g44 →
         cell board_three_in_row (row_count g44 - 1) col ≠ PIECE_EMPTY).
Proof.
  apply (find_playable_columns_empty g44 board_three_in_row).
  - apply wf_boardb_spec. reflexivity.
  - simpl. lia.
Defined.

(** X11.  [is_game_over] is true exactly when the piece value 1 (the value of
    [PLAYER_AI], which is the human's disc) has four in a row or the top row
    has no empty cell; four in a row of the piece value 2 alone does not end
    the game for the search. *)
Theorem is_game_over_iff g (b : board) :
  wf_board g b → 1 ≤ row_count g →
  (is_game_over g b = true
   ↔ is_winning_pattern g b PIECE_HUMAN = true
     ∨ ∀ col, col < column_count g → cell b (row_count g - 1) col ≠ PIECE_EMPTY)
  ∧ (is_winning_pattern g b PIECE_HUMAN = false →
     (∃ col, col < column_count g ∧ cell b (row_count g - 1) col = PIECE_EMPTY) →
     is_game_over g b = false).
Proof.
  intros Hwf Hr.
  assert (is_game_over g b = true
          ↔ is_winning_pattern g b PIECE_HUMAN = true ∨ find_playable_columns g b = [])
    as Hiff.
  { unfold is_game_over. change PLAYER_AI with PIECE_HUMAN.
    rewrite is_winning_pattern_PLAYER_HUMAN.
    destruct (is_winning_pattern g b PIECE_HUMAN); [tauto|].
    destruct (find_playable_columns g b); simpl.
    - split; [by right|done].
    - split; [done|]. by intros [|]. }
  assert (find_playable_columns g b = []
     ↔ ∀ col, col < column_count g → cell b (row_count g - 1) col ≠ PIECE_EMPTY)
    as Hnil.
  { by rewrite find_playable_columns_nil, open_columns_nil. }
  split; [by rewrite Hiff, Hnil|].
  intros Hwin (col & Hcol & Hcell).
  apply not_true_is_false. intros E.
  apply Hiff in E as [E|E]; [congruence|].
  by destruct (proj1 Hnil E col Hcol).
Qed.

Lemma is_game_over_iff_witness :
  is_game_over g67 board_ai_four = false.
Proof.
  apply (is_game_over_iff g67 board_ai_four).
  - apply wf_boardb_spec. reflexivity.
  - simpl. lia.
  - reflexivity.
  - exists 0. split; [simpl; lia|reflexivity].
Defined.

(** ** The immediate-win shortcut *)

Lemma open_column_has_row g (b : board) col :
  wf_board g b → is_column_open g b (Z.of_nat col) = Some true →
  col < column_count g
  ∧ ∃ row, find_open_row g b col = Some row ∧ cell b row col = PIECE_EMPTY.
Proof.
  intros Hwf Hopen. pose proof (is_column_open_Some_lt _ _ _ _ Hwf Hopen) as Hc.
  split; [done|].
  destruct (decide (1 ≤ row_count g)) as [Hr|Hr].
  - rewrite is_column_open_range in Hopen by done. injection Hopen as Hopen.
    apply Z.eqb_eq in Hopen.
    destruct (find_open_row g b col) as [row|] eqn:E.
    + exists row. split; [done|]. by apply find_open_row_Some in E as [_ ?].
    + rewrite find_open_row_None_iff in E. destruct (E (row_count g - 1)); [lia|done].
  - destruct Hwf as [Hlen _]. unfold is_column_open in Hopen. rewrite Hlen in Hopen.
    replace (row_count g) with 0 in Hopen by lia. done.
Qed.

Lemma filter_ext_elem {A} (P Q : A → Prop) `{!∀ x, Decision (P x), !∀ x, Decision (Q x)}
    (l : list A) :
  (∀ x, x ∈ l → P x ↔ Q x) → filter P l = filter Q l.
Proof.
  induction l as [|x l IH]; intros Hext; [done|].
  rewrite !filter_cons.
  rewrite IH by (intros y Hy; apply Hext; by right).
  apply decide_ext, Hext. left.
Qed.

Lemma head_filter_seq_first (P : nat → Prop) `{!∀ x, Decision (P x)} (s n x : nat) :
  head (filter P (seq s n)) = Some x →
  s ≤ x ∧ P x ∧ ∀ c, s ≤ c < x → ¬ P c.
Proof.
  revert s. induction n as [|n IH]; intros s; simpl; [done|].
  rewrite filter_cons. case_decide as Hs.
  - intros [= <-]. split; [done|]. split; [done|]. intros c ?. lia.
  - intros Hhead. apply IH in Hhead as (Hle & HP & Hlow).
    split; [lia|]. split; [done|]. intros c Hc.
    destruct (decide (c = s)) as [->|]; [done|]. apply Hlow. lia.
Qed.

Lemma immediate_win_scan_eq g piece (b : board) cols :
  wf_board g b →
  immediate_win_scan g piece cols b
  = (head (filter (λ col, is_winning_pattern g (child g b col piece) piece = true)
             (filter (λ col, is_column_open g b (Z.of_nat col) = Some true) cols)), b).
Proof.
  intros Hwf. induction cols as [|col cols IH]; simpl; [done|].
  case_bool_decide as Hopen.
  - rewrite (filter_cons_True _ col) by done.
    destruct (open_column_has_row _ _ _ Hwf Hopen) as (_ & row & Hrow & Hcell).
    assert (child g b col piece = place_disc b row col piece) as Hchild
      by (unfold child; by rewrite Hrow).
    rewrite Hrow, (place_disc_undo _ _ _ _ Hcell), <- Hchild.
    destruct (is_winning_pattern g (child g b col piece) piece) eqn:Hwin.
    + by rewrite filter_cons_True.
    + by rewrite filter_cons_False, IH by congruence.
  - by rewrite (filter_cons_False _ col).
Qed.

Lemma column_wins_child g (b : board) col :
  wf_board g b → col ∈ open_columns g b →
  column_wins g b col = is_winning_pattern g (child g b col PLAYER_AI) PLAYER_AI.
Proof.
  intros Hwf [_ Hopen]%elem_of_open_columns.
  destruct (open_column_has_row _ _ _ Hwf Hopen) as (_ & row & Hrow & _).
  unfold column_wins, child. by rewrite Hrow.
Qed.

(** X12.  [get_immediate_win_move] hands the board back unchanged and returns
    the first open column, in increasing order, at which the drop of
    [piece] gives a winning pattern; it returns [None] exactly when no open
    column does. *)
Theorem get_immediate_win_move_first g (b : board) piece :
  wf_board g b →
  (get_immediate_win_move g b piece).2 = b
  ∧ (get_immediate_win_move g b piece).1
    = head (filter (λ col, is_winning_pattern g (child g b col piece) piece = true)
              (open_columns g b))
  ∧ (∀ col, (get_immediate_win_move g b piece).1 = Some col →
       col < column_count g
       ∧ is_column_open g b (Z.of_nat col) = Some true
       ∧ is_winning_pattern g (child g b col piece) piece = true
       ∧ ∀ c, c < col → is_column_open g b (Z.of_nat c) = Some true →
              is_winning_pattern g (child g b c piece) piece = false)
  ∧ ((get_immediate_win_move g b piece).1 = None →
       ∀ col, is_column_open g b (Z.of_nat col) = Some true →
              is_winning_pattern g (child g b col piece) piece = false).
Proof.
  intros Hwf. unfold get_immediate_win_move. rewrite immediate_win_scan_eq by done.
  fold (open_columns g b). simpl. split; [done|]. split; [done|]. split.
  - intros col Hhead. apply head_Some in Hhead as [l Hl].
    assert (col ∈ filter (λ col, is_winning_pattern g (child g b col piece) piece = true)
                    (open_columns g b)) as Hin by (rewrite Hl; left).
    apply list_elem_of_filter in Hin as [Hwin Hin].
    apply elem_of_open_columns in Hin as [Hc Hopen].
    split; [done|]. split; [done|]. split; [done|].
    intros c Hlt Hcopen. apply not_true_is_false. intros Hcwin.
    unfold open_columns in Hl. rewrite list_filter_filter in Hl.
    assert (head (filter (λ a, is_winning_pattern g (child g b a piece) piece = true
                               ∧ is_column_open g b (Z.of_nat a) = Some true)
                    (seq 0 (column_count g))) = Some col) as Hhead
      by (by rewrite Hl).
    apply head_filter_seq_first in Hhead as (_ & _ & Hlow).
    apply (Hlow c); [lia|done].
  - intros Hhead col Hopen. apply head_None in Hhead. apply not_true_is_false. intros Hwin.
    pose proof (open_column_has_row _ _ _ Hwf Hopen) as [Hc _].
    assert (col ∈ filter (λ col, is_winning_pattern g (child g b col piece) piece = true)
                    (open_columns g b)) as Hin.
    { apply list_elem_of_filter. split; [done|]. by apply elem_of_open_columns. }
    rewrite Hhead in Hin. by apply elem_of_nil in Hin.
Qed.

Lemma get_immediate_win_move_first_witness :
  (get_immediate_win_move g44 board_three_in_row PIECE_HUMAN).2 = board_three_in_row
  ∧ (get_immediate_win_move g44 board_three_in_row PIECE_HUMAN).1 = Some 3.
Proof.
  destruct (get_immediate_win_move_first g44 board_three_in_row PIECE_HUMAN)
    as (H1 & H2 & _).
  - apply wf_boardb_spec. reflexivity.
  - split; [exact H1|]. rewrite H2. reflexivity.
Defined.

(** X13.  The shortcut and the filter inside the search agree for the piece
    value [PLAYER_AI]: [get_immediate_win_move] returns the first of
    [winning_columns]; when it finds a column, [find_playable_columns] is
    the list of winning columns and starts with it, and when it finds none,
    [find_playable_columns] is the list of all open columns. *)
Theorem immediate_win_and_playable_columns g (b : board) :
  wf_board g b →
  (get_immediate_win_move g b PLAYER_AI).1 = head (winning_columns g b)
  ∧ (∀ col, (get_immediate_win_move g b PLAYER_AI).1 = Some col →
       find_playable_columns g b = winning_columns g b
       ∧ head (find_playable_columns g b) = Some col)
  ∧ ((get_immediate_win_move g b PLAYER_AI).1 = None →
       find_playable_columns g b = open_columns g b).
Proof.
  intros Hwf.
  assert ((get_immediate_win_move g b PLAYER_AI).1 = head (winning_columns g b)) as Hhead.
  { unfold get_immediate_win_move. rewrite immediate_win_scan_eq by done.
    fold (open_columns g b). simpl. f_equal. unfold winning_columns.
    apply filter_ext_elem. intros col Hcol. by rewrite column_wins_child. }
  split; [done|]. rewrite Hhead. unfold find_playable_columns. split.
  - intros col Hcol. destruct (winning_columns g b); [done|]. done.
  - intros Hnone. by apply head_None in Hnone as ->.
Qed.

Lemma immediate_win_and_playable_columns_witness :
  (get_immediate_win_move g44 board_three_in_row PLAYER_AI).1
  = head (winning_columns g44 board_three_in_row)
  ∧ find_playable_columns g44 board_three_in_row = winning_columns g44 board_three_in_row
  ∧ head (find_playable_columns g44 board_three_in_row) = Some 3.
Proof.
  destruct (immediate_win_and_playable_columns g44 board_three_in_row) as (H1 & H2 & _).
  - apply wf_boardb_spec. reflexivity.
  - split; [exact H1|]. apply H2. rewrite H1. reflexivity.
Defined.

(** ** The transposition table during a search *)

Lemma minimax_again random_choice g depth (b : board) alpha beta side T alpha' beta' :
  minimax random_choice g depth b alpha' beta' side
    (minimax random_choice g depth b alpha beta side T).2
  = ((minimax random_choice g depth b alpha beta side T).1.1, b,
     (minimax random_choice g depth b alpha beta side T).2).
Proof.
  destruct (T !! (b, depth, side)) as [r|] eqn:HT.
  { rewrite (minimax_cached _ _ _ _ _ _ _ _ _ HT). simpl. by apply minimax_cached. }
  destruct (decide (depth = 0 ∨ is_game_over g b = true)) as [Hcase|Hcase].
  { rewrite !(minimax_unexpanded _ _ _ _ alpha beta _ T) by done. simpl.
    by rewrite (minimax_unexpanded _ _ _ _ alpha' beta' _ T). }
  destruct depth as [|depth]; [by destruct Hcase; left|].
  destruct (is_game_over g b) eqn:Hover; [by destruct Hcase; right|].
  rewrite !(minimax_expand _ _ _ _ alpha beta _ T) by done. cbv zeta.
  destruct side.
  - destruct (maximizing_loop _ _ _ _ _ _ _ _ _) as [r T1].
    cbv beta iota zeta delta [fst snd].
    apply minimax_cached. by rewrite lookup_insert_eq.
  - destruct (minimizing_loop _ _ _ _ _ _ _ _ _) as [r T1].
    cbv beta iota zeta delta [fst snd].
    apply minimax_cached. by rewrite lookup_insert_eq.
Qed.

(** X14.  The table key ignores the window.  Searching a node again on the table
    the first search left returns the first result, whatever the new [alpha]
    and [beta] are, and changes neither board nor table. *)
Theorem minimax_repeat random_choice g depth (b : board) alpha beta side T
    alpha' beta' :
  minimax random_choice g depth b alpha' beta' side
    (minimax random_choice g depth b alpha beta side T).2
  = ((minimax random_choice g depth b alpha beta side T).1.1, b,
     (minimax random_choice g depth b alpha beta side T).2).
Proof. apply minimax_again. Qed.

Lemma table_grows_refl (T : table) depth : table_grows T T depth.
Proof. split; [done|]. intros k Hnone [v Hv]. congruence. Qed.

Lemma table_grows_trans (T1 T2 T3 : table) depth :
  table_grows T1 T2 depth → table_grows T2 T3 depth → table_grows T1 T3 depth.
Proof.
  intros [Hsub1 Hnew1] [Hsub2 Hnew2]. split; [by etrans|].
  intros k Hnone Hsome. destruct (T2 !! k) eqn:E.
  - apply Hnew1; [done|by eexists].
  - by apply Hnew2.
Qed.

Lemma table_grows_le (T T' : table) d d' :
  table_grows T T' d → d ≤ d' → table_grows T T' d'.
Proof. intros [Hsub Hnew] Hle. split; [done|]. intros k ? ?. etrans; [by apply Hnew|done]. Qed.

Section TableGrows.

Variable random_choice : table → board → nat → bool → list nat → nat.
Variable g : Connect4Game.

Section Loops.

Variable depth : nat.
Variable rec : board → score → score → bool → table → search_result * board * table.
Hypothesis rec_grows : ∀ b alpha beta side T,
  table_grows T (rec b alpha beta side T).2 depth.

Lemma maximizing_loop_grows (b : board) cols column value alpha beta T :
  table_grows T (maximizing_loop g rec b cols column value alpha beta T).2 depth.
Proof.
  revert column value alpha T. induction cols as [|col cols IH];
    intros column value alpha T; simpl; [apply table_grows_refl|].
  pose proof (rec_grows (child g b col PLAYER_AI) alpha beta false T) as H1.
  destruct (rec _ alpha beta false T) as [[r0 b0] T0]. simpl in H1.
  destruct (score_lt value r0.2); destruct (score_ge _ beta); simpl; try done;
    (eapply table_grows_trans; [exact H1|apply IH]).
Qed.

Lemma minimizing_loop_grows (b : board) cols column value alpha beta T :
  table_grows T (minimizing_loop g rec b cols column value alpha beta T).2 depth.
Proof.
  revert column value beta T. induction cols as [|col cols IH];
    intros column value beta T; simpl; [apply table_grows_refl|].
  pose proof (rec_grows (child g b col PLAYER_HUMAN) alpha beta true T) as H1.
  destruct (rec _ alpha beta true T) as [[r0 b0] T0]. simpl in H1.
  destruct (score_lt r0.2 value); destruct (score_ge alpha _); simpl; try done;
    (eapply table_grows_trans; [exact H1|apply IH]).
Qed.

End Loops.

Lemma table_grows_insert (T T1 : table) (b : board) depth side r :
  T !! (b, S depth, side) = None → table_grows T T1 depth →
  table_grows T (<[(b, S depth, side) := r]> T1) (S depth).
Proof.
  intros Hnone [Hsub Hnew].
  assert (T1 !! (b, S depth, side) = None) as Hnone1.
  { destruct (T1 !! (b, S depth, side)) eqn:E; [|done].
    specialize (Hnew (b, S depth, side) Hnone ltac:(by eexists)). simpl in Hnew. lia. }
  split.
  - etrans; [exact Hsub|]. by apply insert_subseteq.
  - intros k Hk. rewrite lookup_insert. case_decide as E.
    + subst k. done.
    + intros Hsome. specialize (Hnew k Hk Hsome). lia.
Qed.

Lemma minimax_grows depth : ∀ (b : board) alpha beta side T,
  table_grows T (minimax random_choice g depth b alpha beta side T).2 depth.
Proof.
  induction depth as [|depth IH]; intros b alpha beta side T.
  - destruct (T !! (b, 0, side)) as [r|] eqn:Hlookup.
    + rewrite (minimax_cached _ _ _ _ _ _ _ _ _ Hlookup). apply table_grows_refl.
    + rewrite minimax_unexpanded by (done || by left). apply table_grows_refl.
  - destruct (T !! (b, S depth, side)) as [r|] eqn:Hlookup.
    { rewrite (minimax_cached _ _ _ _ _ _ _ _ _ Hlookup). apply table_grows_refl. }
    destruct (is_game_over g b) eqn:Hover.
    { rewrite minimax_unexpanded by (done || by right). apply table_grows_refl. }
    rewrite minimax_expand by done. cbv zeta.
    destruct side.
    + pose proof (maximizing_loop_grows depth (minimax random_choice g depth) IH b
        (find_playable_columns g b)
        (Some (random_choice T b (S depth) true (find_playable_columns g b)))
        NegInf alpha beta T) as Hloop.
      destruct (maximizing_loop _ _ _ _ _ _ _ _ _) as [r T1]. simpl in *.
      by apply table_grows_insert.
    + pose proof (minimizing_loop_grows depth (minimax random_choice g depth) IH b
        (find_playable_columns g b)
        (Some (random_choice T b (S depth) false (find_playable_columns g b)))
        PosInf alpha beta T) as Hloop.
      destruct (minimizing_loop _ _ _ _ _ _ _ _ _) as [r T1]. simpl in *.
      by apply table_grows_insert.
Qed.

End TableGrows.

(** X15.  A search only adds to the transposition table.  Every entry that was
    in the table is still there with the same value afterwards, and every
    key the search added has a depth of at most the depth searched. *)
Theorem minimax_table_grows random_choice g depth (b : board) alpha beta side T :
  let T' := (minimax random_choice g depth b alpha beta side T).2 in
  (∀ k r, T !! k = Some r → T' !! k = Some r)
  ∧ (∀ k, T !! k = None → is_Some (T' !! k) → k.1.2 ≤ depth).
Proof.
  destruct (minimax_grows random_choice g depth b alpha beta side T) as [Hsub Hnew].
  split; [|done]. intros k r Hk. by eapply lookup_weaken.
Qed.

(** ** The minimizing player's move *)

Lemma score_lt_score_min beta v : score_lt v (score_min beta v) = false.
Proof.
  unfold score_min. destruct (score_lt v beta) eqn:E; [apply score_lt_irrefl|done].
Qed.

Lemma minimizing_loop_again random_choice g depth (b : board) cols col alpha T
    (r1 : search_result) :
  (∀ beta, minimax random_choice g depth b alpha beta true T = (r1, b, T)) →
  ∀ beta, score_lt r1.2 beta = false →
  minimizing_loop g (minimax random_choice g depth) b cols (Some col) r1.2 alpha beta T
  = ((Some col, r1.2), T).
Proof.
  intros Hagain. induction cols as [|c cols IH]; intros beta Hbeta; simpl; [done|].
  rewrite child_PLAYER_HUMAN, Hagain. simpl. rewrite score_lt_irrefl.
  assert (score_min beta r1.2 = beta) as -> by (unfold score_min; by rewrite Hbeta).
  destruct (score_ge alpha beta); [done|]. by apply IH.
Qed.

Lemma minimax_minimizing_node random_choice g depth (b : board) alpha beta T :
  T !! (b, S depth, false) = None → is_game_over g b = false →
  (minimax random_choice g depth b alpha beta true T).1.1.2 ≠ PosInf →
  ∃ col cols, find_playable_columns g b = col :: cols
    ∧ minimax random_choice g (S depth) b alpha beta false T
      = ((Some col, (minimax random_choice g depth b alpha beta true T).1.1.2), b,
         <[(b, S depth, false) :=
             (Some col, (minimax random_choice g depth b alpha beta true T).1.1.2)]>
           (minimax random_choice g depth b alpha beta true T).2).
Proof.
  intros HT Hover Hv.
  pose proof (find_playable_columns_nonempty _ _ Hover) as Hne.
  rewrite minimax_expand by done. cbv zeta.
  destruct (find_playable_columns g b) as [|col cols]; [done|].
  exists col, cols. split; [done|].
  pose proof (λ beta', minimax_again random_choice g depth b alpha beta true T alpha beta')
    as Hagain.
  pose proof (minimax_board random_choice g depth b alpha beta true T) as Hboard.
  destruct (minimax random_choice g depth b alpha beta true T) as [[r1 b1] T1] eqn:E.
  simpl in Hagain, Hv, Hboard. subst b1.
  cbn [minimizing_loop]. rewrite child_PLAYER_HUMAN, E.
  cbv beta iota zeta.
  rewrite (score_lt_PosInf _ Hv).
  destruct (score_ge alpha (score_min beta r1.2)); [done|].
  by rewrite (minimizing_loop_again _ _ _ _ _ _ _ _ r1 Hagain)
    by apply score_lt_score_min.
Qed.

(** X16.  The minimizing player's disc has the value [PLAYER_HUMAN] = 0, the
    value of an empty cell, so its move does not change the board.  A
    minimizing node that expands therefore returns its first playable column
    together with the score of the same board searched one ply shallower for
    the maximizing player, and stores that pair in the table. *)
Theorem minimizing_node_passes random_choice g depth (b : board) alpha beta T :
  T !! (b, S depth, false) = None → is_game_over g b = false →
  (minimax random_choice g depth b alpha beta true T).1.1.2 ≠ PosInf →
  (∀ col, child g b col PLAYER_HUMAN = b)
  ∧ ∃ col cols, find_playable_columns g b = col :: cols
    ∧ minimax random_choice g (S depth) b alpha beta false T
      = ((Some col, (minimax random_choice g depth b alpha beta true T).1.1.2), b,
         <[(b, S depth, false) :=
             (Some col, (minimax random_choice g depth b alpha beta true T).1.1.2)]>
           (minimax random_choice g depth b alpha beta true T).2).
Proof.
  intros HT Hover Hv. split; [intros; apply child_PLAYER_HUMAN|].
  by apply minimax_minimizing_node.
Qed.

Lemma minimizing_node_passes_witness :
  ∃ col cols, find_playable_columns g44 (create_board g44) = col :: cols
    ∧ (minimax first_choice g44 1 (create_board g44) NegInf PosInf false ∅).1.1
      = (Some col,
         (minimax first_choice g44 0 (create_board g44) NegInf PosInf true ∅).1.1.2).
Proof.
  destruct (minimizing_node_passes first_choice g44 0 (create_board g44) NegInf PosInf ∅)
    as (_ & col & cols & Hcols & Heq).
  - reflexivity.
  - reflexivity.
  - vm_compute. discriminate.
  - exists col, cols. split; [exact Hcols|]. by rewrite Heq.
Defined.

(** ** Iterative deepening *)

Lemma score_le_trans x y z :
  score_lt x y = false → score_lt y z = false → score_lt x z = false.
Proof.
  destruct x, y, z; simpl; try done. rewrite !Z.ltb_ge. lia.
Qed.

Lemma score_lt_false_of_lt x y : score_lt x y = true → score_lt y x = false.
Proof. destruct x, y; simpl; try done. rewrite Z.ltb_lt, Z.ltb_ge. lia. Qed.

Lemma deepening_fold_frame random_choice g alpha beta depths :
  ∀ best (b : board) T,
    let res := fold_left (deepening_step random_choice g alpha beta) depths (best, b, T) in
    res.1.2 = b ∧ ∀ k r, T !! k = Some r → res.2 !! k = Some r.
Proof.
  induction depths as [|depth depths IH]; intros [best_col best_score] b T; simpl; [done|].
  pose proof (minimax_board random_choice g depth b alpha beta true T) as Hb.
  pose proof (minimax_grows random_choice g depth b alpha beta true T) as [Hsub _].
  destruct (minimax random_choice g depth b alpha beta true T) as [[[column score] b1] T1].
  simpl in Hb, Hsub. subst b1.
  destruct (score_lt best_score score).
  - destruct (IH (column, score) b T1) as [H1 H2]. split; [done|].
    intros k r Hk. apply H2. by eapply lookup_weaken.
  - destruct (IH (best_col, best_score) b T1) as [H1 H2]. split; [done|].
    intros k r Hk. apply H2. by eapply lookup_weaken.
Qed.

(** X17.  [iterative_deepening_minimax] hands the board back unchanged and
    keeps every entry the table had; without a playable column it returns
    [(None, 0)] at once and leaves the table as it is, and with
    [max_depth = 0] it returns its random column with the score [-inf]. *)
Theorem iterative_deepening_frame random_choice g (b : board) max_depth alpha beta T :
  let res := iterative_deepening_minimax random_choice g b max_depth alpha beta T in
  res.1.2 = b
  ∧ (∀ k r, T !! k = Some r → res.2 !! k = Some r)
  ∧ (find_playable_columns g b = [] → res = ((None, Fin 0), b, T))
  ∧ (find_playable_columns g b ≠ [] → max_depth = 0 →
     res = ((Some (random_choice T b 0 true (find_playable_columns g b)), NegInf), b, T)).
Proof.
  unfold iterative_deepening_minimax.
  destruct (find_playable_columns g b) as [|c l] eqn:E.
  - simpl. repeat split; done.
  - pose proof (deepening_fold_frame random_choice g alpha beta (seq 1 max_depth)
        (Some (random_choice T b 0 true (c :: l)), NegInf) b T) as [H1 H2].
    split; [done|]. split; [done|]. split; [done|]. by intros _ ->.
Qed.

Lemma deepening_fold_exact random_choice g (b : board) alpha depths :
  alpha ≠ PosInf →
  ∀ best T, table_exact g T →
    ∃ T', fold_left (deepening_step random_choice g alpha PosInf) depths (best, b, T)
          = (fold_left (λ best depth,
               let r := full_minimax g depth b true in
               if score_lt best.2 r.2 then r else best) depths best, b, T')
          ∧ table_exact g T'.
Proof.
  intros Halpha. induction depths as [|depth depths IH]; intros [best_col best_score] T HT;
    simpl; [by eexists|].
  destruct (minimax_exact g random_choice depth b alpha true T HT Halpha)
    as (T1 & -> & HT1 & _).
  destruct (full_minimax g depth b true) as [column score] eqn:E. simpl.
  destruct (score_lt best_score score); by apply IH.
Qed.

Lemma best_fold_max (f : nat → search_result) depths :
  ∀ seed,
    let res := fold_left (λ best depth,
                 if score_lt best.2 (f depth).2 then f depth else best) depths seed in
    (res = seed ∨ ∃ d, d ∈ depths ∧ res = f d)
    ∧ score_lt res.2 seed.2 = false
    ∧ ∀ d, d ∈ depths → score_lt res.2 (f d).2 = false.
Proof.
  induction depths as [|depth depths IH]; intros seed; simpl.
  - split; [by left|]. split; [apply score_lt_irrefl|]. intros d Hd. by apply elem_of_nil in Hd.
  - destruct (score_lt seed.2 (f depth).2) eqn:E.
    + destruct (IH (f depth)) as (Hres & Hseed & Hall). split; [|split].
      * right. destruct Hres as [->|(d & Hd & ->)].
        -- exists depth. split; [left|done].
        -- exists d. split; [by right|done].
      * eapply score_le_trans; [exact Hseed|]. by apply score_lt_false_of_lt.
      * intros d [->|Hd]%elem_of_cons; [done|by apply Hall].
    + destruct (IH seed) as (Hres & Hseed & Hall). split; [|split].
      * destruct Hres as [->|(d & Hd & ->)]; [by left|].
        right. exists d. split; [by right|done].
      * done.
      * intros d [->|Hd]%elem_of_cons; [|by apply Hall].
        by eapply score_le_trans.
Qed.

(** X18.  Started with [beta = inf] on a table left by such searches, iterative
    deepening is exact whatever [random.choice] draws: with a playable
    column and [max_depth >= 1] it returns the column and score of the
    unpruned search at one of the depths [1..max_depth], no depth in that
    range has a higher score, and the table is again of that kind. *)
Theorem iterative_deepening_exact random_choice g (b : board) max_depth alpha T :
  table_exact g T → alpha ≠ PosInf →
  find_playable_columns g b ≠ [] → 1 ≤ max_depth →
  let res := iterative_deepening_minimax random_choice g b max_depth alpha PosInf T in
  table_exact g res.2
  ∧ res.1.1
    = best_over_depths g b max_depth
        (Some (random_choice T b 0 true (find_playable_columns g b)), NegInf)
  ∧ (∃ d, 1 ≤ d ≤ max_depth ∧ res.1.1 = full_minimax g d b true)
  ∧ (∀ d, 1 ≤ d ≤ max_depth → score_lt res.1.1.2 (full_minimax g d b true).2 = false).
Proof.
  intros HT Halpha Hne Hdepth. unfold iterative_deepening_minimax.
  destruct (find_playable_columns g b) as [|c l] eqn:E; [done|].
  destruct (deepening_fold_exact random_choice g b alpha (seq 1 max_depth) Halpha
              (Some (random_choice T b 0 true (c :: l)), NegInf) T HT)
    as (T' & -> & HT').
  simpl. split; [done|]. split; [done|].
  pose proof (best_fold_max (λ d, full_minimax g d b true) (seq 1 max_depth)
                (Some (random_choice T b 0 true (c :: l)), NegInf)) as (Hres & _ & Hall).
  cbv beta zeta in Hres, Hall. split.
  - destruct Hres as [Hres|(d & Hd%elem_of_seq & Hres)].
    + (* the seed is replaced by the first round, whose score is a number *)
      specialize (Hall 1 ltac:(apply elem_of_seq; lia)).
      destruct (full_minimax_finite g 1 b true) as [z Hz].
      rewrite Hres, Hz in Hall. done.
    + exists d. split; [lia|done].
  - intros d Hd. apply Hall, elem_of_seq. lia.
Qed.

Lemma iterative_deepening_exact_witness :
  table_exact g44
    (iterative_deepening_minimax first_choice g44 board_three_in_row 2 NegInf PosInf ∅).2
  ∧ (∃ d, 1 ≤ d ≤ 2
       ∧ (iterative_deepening_minimax first_choice g44 board_three_in_row 2
            NegInf PosInf ∅).1.1
         = full_minimax g44 d board_three_in_row true).
Proof.
  destruct (iterative_deepening_exact first_choice g44 board_three_in_row 2 NegInf ∅)
    as (H1 & _ & H3 & _).
  - exact (table_exact_empty g44).
  - discriminate.
  - vm_compute. discriminate.
  - lia.
  - split; [exact H1|exact H3].
Defined.

Lemma deepening_fold_column random_choice g (b : board) alpha beta depths :
  (∀ T b depth side l, l ≠ [] → random_choice T b depth side l ∈ l) →
  is_game_over g b = false → (∀ d, d ∈ depths → 1 ≤ d) →
  ∀ best T, table_columns_playable g T →
    (∃ col, best.1 = Some col ∧ col ∈ find_playable_columns g b) →
    let res := fold_left (deepening_step random_choice g alpha beta) depths (best, b, T) in
    (∃ col, res.1.1.1 = Some col ∧ col ∈ find_playable_columns g b)
    ∧ table_columns_playable g res.2.
Proof.
  intros Hrandom Hover. induction depths as [|depth depths IH];
    intros Hdepths [best_col best_score] T HT Hbest; simpl; [done|].
  pose proof (minimax_board random_choice g depth b alpha beta true T) as Hb.
  pose proof (minimax_keeps_table_columns_playable random_choice g Hrandom depth b
                alpha beta true T HT) as HT1.
  pose proof (minimax_column_expand random_choice g depth b alpha beta true T
                Hrandom HT (Hdepths depth ltac:(left)) Hover) as Hcol.
  destruct (minimax random_choice g depth b alpha beta true T) as [[[column score] b1] T1].
  simpl in Hb, HT1, Hcol. subst b1.
  assert (∀ d, d ∈ depths → 1 ≤ d) as Hdepths' by (intros d Hd; apply Hdepths; by right).
  destruct (score_lt best_score score); by apply IH.
Qed.

Lemma iterative_deepening_playable random_choice g (b : board) max_depth alpha beta T :
  (∀ T b depth side l, l ≠ [] → random_choice T b depth side l ∈ l) →
  table_columns_playable g T → is_game_over g b = false →
  let res := iterative_deepening_minimax random_choice g b max_depth alpha beta T in
  (∃ col, res.1.1.1 = Some col ∧ col ∈ find_playable_columns g b)
  ∧ table_columns_playable g res.2.
Proof.
  intros Hrandom HT Hover. unfold iterative_deepening_minimax.
  pose proof (find_playable_columns_nonempty _ _ Hover) as Hne.
  destruct (find_playable_columns g b) as [|c l] eqn:E; [done|].
  rewrite <- E in *.
  apply deepening_fold_column; try done.
  - intros d Hd%elem_of_seq. lia.
  - simpl. eexists. split; [done|]. by apply Hrandom.
Qed.

(** X19.  With a table whose entries name playable columns and a board where
    the game is not over, iterative deepening returns a playable column for
    every [max_depth] and every window, and leaves such a table. *)
Theorem iterative_deepening_column random_choice g (b : board) max_depth alpha beta T :
  (∀ T b depth side l, l ≠ [] → random_choice T b depth side l ∈ l) →
  table_columns_playable g T → is_game_over g b = false →
  let res := iterative_deepening_minimax random_choice g b max_depth alpha beta T in
  (∃ col, res.1.1.1 = Some col ∧ col ∈ find_playable_columns g b)
  ∧ table_columns_playable g res.2.
Proof. apply iterative_deepening_playable. Qed.

Lemma iterative_deepening_column_witness :
  ∃ col,
    (iterative_deepening_minimax first_choice g44 board_three_in_row 2
       NegInf PosInf ∅).1.1.1 = Some col
    ∧ col ∈ find_playable_columns g44 board_three_in_row.
Proof.
  apply (iterative_deepening_column first_choice g44 board_three_in_row 2 NegInf PosInf ∅).
  - exact first_choice_elem.
  - exact (table_columns_playable_empty g44).
  - reflexivity.
Defined.

(** ** The AI's turn in the game loop *)

Lemma get_immediate_win_move_eq g (b : board) piece :
  wf_board g b →
  get_immediate_win_move g b piece
  = (head (filter (λ col, is_winning_pattern g (child g b col piece) piece = true)
             (open_columns g b)), b).
Proof. intros Hwf. unfold get_immediate_win_move. by rewrite immediate_win_scan_eq. Qed.

Lemma child_open_keeps g (b : board) col piece :
  wf_board g b → gravity g b → is_column_open g b (Z.of_nat col) = Some true →
  wf_board g (child g b col piece) ∧ gravity g (child g b col piece).
Proof.
  intros Hwf Hg Hopen.
  destruct (open_column_has_row _ _ _ Hwf Hopen) as (_ & row & Hrow & _).
  unfold child. rewrite Hrow. split; [by apply place_disc_wf|by eapply drop_keeps_gravity].
Qed.

(** X20.  The immediate-win shortcut of the game loop.  When
    [get_immediate_win_move] finds a column for the AI's piece, the AI's
    turn drops the disc there without searching: the AI's piece then has a
    winning pattern, the game is over and the table is untouched. *)
Theorem ai_turn_immediate_win random_choice g (s : session) col :
  wf_board g (s_board s) →
  (get_immediate_win_move g (s_board s) PIECE_AI).1 = Some col →
  let s' := ai_turn random_choice g s in
  s_board s' = child g (s_board s) col PIECE_AI
  ∧ is_column_open g (s_board s) (Z.of_nat col) = Some true
  ∧ is_winning_pattern g (s_board s') PIECE_AI = true
  ∧ s_game_over s' = true
  ∧ s_table s' = s_table s.
Proof.
  intros Hwf. unfold ai_turn. rewrite get_immediate_win_move_eq by done. simpl.
  intros Hhead. rewrite Hhead. simpl.
  apply head_Some in Hhead as [l Hl].
  assert (col ∈ filter (λ col, is_winning_pattern g (child g (s_board s) col PIECE_AI)
                                  PIECE_AI = true) (open_columns g (s_board s))) as Hin
    by (rewrite Hl; left).
  apply list_elem_of_filter in Hin as [Hwin [_ Hopen]%elem_of_open_columns].
  by rewrite Hwin.
Qed.

Lemma ai_turn_immediate_win_witness :
  s_board (ai_turn first_choice g44 (mkSession board_late_near_win ∅ PLAYER_AI false))
  = child g44 board_late_near_win 3 PIECE_AI
  ∧ is_winning_pattern g44
      (s_board (ai_turn first_choice g44 (mkSession board_late_near_win ∅ PLAYER_AI false)))
      PIECE_AI = true
  ∧ s_game_over (ai_turn first_choice g44 (mkSession board_late_near_win ∅ PLAYER_AI false))
    = true.
Proof.
  destruct (ai_turn_immediate_win first_choice g44
              (mkSession board_late_near_win ∅ PLAYER_AI false) 3)
    as (H1 & _ & H3 & H4 & _).
  - apply wf_boardb_spec. reflexivity.
  - vm_compute. reflexivity.
  - split; [exact H1|]. split; [exact H3|exact H4].
Defined.

Lemma iterative_deepening_board random_choice g (b : board) max_depth alpha beta T :
  (iterative_deepening_minimax random_choice g b max_depth alpha beta T).1.2 = b.
Proof.
  unfold iterative_deepening_minimax.
  destruct (find_playable_columns g b) as [|c l]; [done|].
  apply deepening_fold_frame.
Qed.

(** X21.  On a board where the search does not see the game as over, the AI's
    turn always drops exactly one disc of the AI's piece into an open
    column, at the lowest empty row: the board keeps its shape and its
    stacking, the table still names playable columns only, and the game is
    flagged over exactly when that disc completed a winning pattern for the
    AI (or the flag was already set). *)
Theorem ai_turn_drops_one_disc random_choice g (s : session) :
  (∀ T b depth side l, l ≠ [] → random_choice T b depth side l ∈ l) →
  wf_board g (s_board s) → gravity g (s_board s) →
  table_columns_playable g (s_table s) →
  is_game_over g (s_board s) = false →
  let s' := ai_turn random_choice g s in
  ∃ col, is_column_open g (s_board s) (Z.of_nat col) = Some true
    ∧ s_board s' = child g (s_board s) col PIECE_AI
    ∧ wf_board g (s_board s') ∧ gravity g (s_board s')
    ∧ table_columns_playable g (s_table s')
    ∧ s_game_over s' = is_winning_pattern g (s_board s') PIECE_AI || s_game_over s.
Proof.
  intros Hrandom Hwf Hg HT Hover. unfold ai_turn.
  rewrite get_immediate_win_move_eq by done.
  destruct (head _) as [col|] eqn:Hhead.
  - apply head_Some in Hhead as [l Hl].
    assert (col ∈ filter (λ col, is_winning_pattern g (child g (s_board s) col PIECE_AI)
                                    PIECE_AI = true) (open_columns g (s_board s))) as Hin
      by (rewrite Hl; left).
    apply list_elem_of_filter in Hin as [Hwin [_ Hopen]%elem_of_open_columns].
    destruct (child_open_keeps g (s_board s) col PIECE_AI Hwf Hg Hopen) as [Hwf' Hg'].
    exists col. simpl. by rewrite Hwin.
  - pose proof (iterative_deepening_playable random_choice g (s_board s)
        (calculate_dynamic_depth g (s_board s)) NegInf PosInf (s_table s)
        Hrandom HT Hover) as [(col & Hcol & Hin) HT'].
    pose proof (iterative_deepening_board random_choice g (s_board s)
        (calculate_dynamic_depth g (s_board s)) NegInf PosInf (s_table s)) as Hboard.
    destruct (iterative_deepening_minimax _ _ _ _ _ _ _) as [[[column score] b'] T'].
    simpl in Hcol, HT', Hboard. subst b' column.
    apply find_playable_columns_open, elem_of_open_columns in Hin as [_ Hopen].
    destruct (child_open_keeps g (s_board s) col PIECE_AI Hwf Hg Hopen) as [Hwf' Hg'].
    rewrite bool_decide_eq_true_2 by done.
    exists col. simpl. by destruct (is_winning_pattern _ _ _).
Qed.

Lemma ai_turn_drops_one_disc_witness :
  ∃ col, is_column_open g44 board_three_rows (Z.of_nat col) = Some true
    ∧ s_board (ai_turn first_choice g44 (mkSession board_three_rows ∅ PLAYER_AI false))
      = child g44 board_three_rows col PIECE_AI.
Proof.
  destruct (ai_turn_drops_one_disc first_choice g44
              (mkSession board_three_rows ∅ PLAYER_AI false))
    as (col & H1 & H2 & _).
  - exact first_choice_elem.
  - apply wf_boardb_spec. reflexivity.
  - intros r c Hr Hc. simpl in Hr, Hc.
    destruct r as [|[|[|r]]]; [| | |lia];
      (destruct c as [|[|[|[|c]]]]; [| | | |lia]); vm_compute; congruence.
  - exact (table_columns_playable_empty g44).
  - reflexivity.
  - exists col. split; [exact H1|exact H2].
Defined.

(** X22.  When no column is open the AI's turn changes neither board nor
    table and flags the game as over (the game loop then reports a draw). *)
Theorem ai_turn_full_board random_choice g (s : session) :
  wf_board g (s_board s) → open_columns g (s_board s) = [] →
  ai_turn random_choice g s = mkSession (s_board s) (s_table s) (s_turn s) true.
Proof.
  intros Hwf Hfull. unfold ai_turn. rewrite get_immediate_win_move_eq by done.
  rewrite Hfull. simpl. unfold iterative_deepening_minimax.
  by rewrite (proj2 (find_playable_columns_nil g (s_board s)) Hfull).
Qed.

Lemma ai_turn_full_board_witness :
  ai_turn first_choice g44 (mkSession board_full ∅ PLAYER_AI false)
  = mkSession board_full ∅ PLAYER_AI true.
Proof.
  apply (ai_turn_full_board first_choice g44 (mkSession board_full ∅ PLAYER_AI false)).
  - apply wf_boardb_spec. reflexivity.
  - reflexivity.
Defined.
